(** * GQLify: the [init] command

  A shallow embedding of [bin/gqlify.ts] and [src/commands/init.ts].
  The command is two filesystem calls wrapped in console output, so
  the development has three layers:

  - [Path]: the two path computations ([path.join], [path.resolve]);
  - [Fs]: the filesystem as a finite map from paths to entries, and the
    two [fs-extra] calls of the command.  [fs-extra] is a library, not
    part of this repository; [pathExists] and [copy] are written after
    its implementation with the default options.  What the environment
    refuses is part of the disk: paths that cannot be reached at all
    (a directory without search permission), and reads, writes and mode
    changes that are denied on a path that can be;
  - [Init]: the command itself, in a small state / exception / exit
    monad, the [commander] registration of [bin/gqlify.ts], and the way
    the process ends. *)

From Stdlib Require Import ZArith Lia Ascii String.
From stdpp Require Import base option list strings sorting gmap.

Local Open Scope string_scope.
Local Open Scope list_scope.

(** ** Paths *)

(** An absolute path, as its components below the root. *)
Abbreviation path := (list string).

Module Path.

(** Splitting a POSIX path string at ['/']. *)
Fixpoint split_aux (acc : string) (s : string) : list string :=
  match s with
  | EmptyString => [String.rev acc]
  | String c s' =>
      if Ascii.eqb c "/"%char
      then String.rev acc :: split_aux EmptyString s'
      else split_aux (String c acc) s'
  end.

Definition split (s : string) : list string := split_aux EmptyString s.

(** One step of normalisation: [..] drops the last component (and is
    absorbed at the root), [.] and empty segments are dropped. *)
Definition step (acc : path) (seg : string) : path :=
  if decide (seg = "..") then removelast acc
  else if decide (seg = ".") then acc
  else if decide (seg = "") then acc
  else acc ++ [seg].

Definition normalize (base : path) (segs : list string) : path :=
  foldl step base segs.

(** [path.join(a, s)] for an absolute [a]. *)
Definition join (a : path) (s : string) : path := normalize a (split s).

(** [path.resolve(a, s)] for an absolute [a] and a relative [s]. *)
Definition resolve (a : path) (s : string) : path := normalize a (split s).

(** [path.dirname]. *)
Definition dirname (p : path) : path := removelast p.

End Path.

(** ** Filesystem *)

Module Fs.

Definition bytes := list Byte.byte.

Inductive node :=
| File (data : bytes)
| Dir
| Symlink (target : path).

Inductive errno := ENOENT | EACCES | ENOSPC | ENOTDIR | EIO | EEXIST | EPERM.

(** What [fs-extra] throws: a system error on a path, or one of the
    refusals of [copy]'s own path checks. *)
Inductive error :=
| SysError (code : errno) (p : path)
| SameFile (src dest : path)
| DirOverNonDir (src dest : path)
| NonDirOverDir (src dest : path)
| IntoItself (src dest : path)
| OverLink (dest src : path).

(** The operations that can be denied on a path that is reached:
    reading what it holds, creating or removing it, changing its mode. *)
Inductive op := Read | Write | Chmod.

#[export] Instance op_eq_dec : EqDecision op.
Proof. solve_decision. Defined.

#[export] Instance op_countable : Countable op.
Proof.
  refine (inj_countable'
            (λ o, match o with Read => 0 | Write => 1 | Chmod => 2 end)
            (λ n, match n with 0 => Read | 1 => Write | _ => Chmod end) _).
  by intros [].
Defined.

(** The directory tree, the paths that every call fails on ([faults]),
    and the operations that fail on paths that are reached ([denied]). *)
Record disk := Disk {
  tree : gmap path node;
  faults : gmap path errno;
  denied : gmap (op * path) errno
}.

Definition is_dir (n : option node) : bool :=
  match n with Some Dir => true | _ => false end.

(** [fs.access]: the entry is looked up following symbolic links, at
    most [fuel] of them; it fails when a path on the way cannot be
    reached or is not there. *)
Fixpoint access (fuel : nat) (d : disk) (p : path) : bool :=
  match faults d !! p with
  | Some _ => false
  | None =>
      match tree d !! p with
      | None => false
      | Some (Symlink q) =>
          match fuel with
          | O => false
          | S fuel' => access fuel' d q
          end
      | Some _ => true
      end
  end.

Definition MAXSYMLINKS : nat := 40.

(** [fs-extra]'s [pathExists]:
    [fs.access(p).then(() => true).catch(() => false)]. *)
Definition pathExists (d : disk) (p : path) : bool :=
  access MAXSYMLINKS d p.

(** Filesystem calls either return or throw, and change the disk
    either way: a failed call keeps what it had written. *)
Definition io (A : Type) : Type := disk → (error + A) * disk.

Definition ret {A} (a : A) : io A := λ d, (inr a, d).
Definition throw {A} (e : error) : io A := λ d, (inl e, d).
Definition bind {A B} (k : A → io B) (m : io A) : io B :=
  λ d, match m d with
       | (inr a, d') => k a d'
       | (inl e, d') => (inl e, d')
       end.

Definition gets {A} (f : disk → A) : io A := λ d, (inr (f d), d).
Definition modify (f : gmap path node → gmap path node) : io unit :=
  λ d, (inr (), Disk (f (tree d)) (faults d) (denied d)).

#[export] Instance io_ret : MRet io := @ret.
#[export] Instance io_bind : MBind io := @bind.

(** Reaching [p]. *)
Definition check (p : path) : io unit :=
  λ d, match faults d !! p with
       | Some e => (inl (SysError e p), d)
       | None => (inr (), d)
       end.

(** Being allowed [o] on [p]. *)
Definition permit (o : op) (p : path) : io unit :=
  λ d, match denied d !! (o, p) with
       | Some e => (inl (SysError e p), d)
       | None => (inr (), d)
       end.

(** [fs.lstat]: the entry itself, links not followed; [None] is the
    [ENOENT] that [fs-extra] turns into "no such entry". *)
Definition lstat (p : path) : io (option node) :=
  check p ;; gets (λ d, tree d !! p).

Definition mkdir (p : path) : io unit :=
  check p ;; permit Write p ;; modify (insert p Dir).

Definition opendir (s : path) : io unit :=
  check s ;; permit Read s.

(** [fs.copyFile(s, p)], for a source that holds [data]. *)
Definition copyFile (s p : path) (data : bytes) : io unit :=
  check s ;; permit Read s ;; check p ;; permit Write p ;;
  modify (insert p (File data)).

Definition readlink (s : path) : io unit := check s.

Definition symlink (t p : path) : io unit :=
  check p ;; permit Write p ;; modify (insert p (Symlink t)).

Definition unlink (p : path) : io unit :=
  check p ;; permit Write p ;; modify (delete p).

Definition chmod (p : path) : io unit :=
  check p ;; permit Chmod p.

Fixpoint forM {A} (l : list A) (f : A → io unit) : io unit :=
  match l with
  | [] => mret ()
  | a :: l' => f a ;; forM l' f
  end.

(** [strip src p] is [Some rel] when [p = src ++ rel]. *)
Fixpoint strip (src p : path) : option path :=
  match src, p with
  | [], _ => Some p
  | x :: src', y :: p' => if decide (x = y) then strip src' p' else None
  | _ :: _, [] => None
  end.

(** The entries at and below [src], by relative path. *)
Definition entries (src : path) (t : gmap path node) : list (path * node) :=
  omap (λ e, (λ rel, (rel, e.2)) <$> strip src e.1) (map_to_list t).

(** [mkdirs], that is [fs.mkdir] with [recursive]: the directory is
    tried first, and its parent is made only when it is missing.  The
    path is given last component first. *)
Fixpoint mkdirs_rev (rp : list string) : io unit :=
  match rp with
  | [] => mret ()
  | x :: rp' =>
      st ← lstat (rev (x :: rp'));
      match st with
      | None => mkdirs_rev rp' ;; mkdir (rev (x :: rp'))
      | Some Dir => mret ()
      | Some (Symlink _) =>
          ok ← gets (λ d, pathExists d (rev (x :: rp')));
          if ok : bool then mret ()
          else throw (SysError EEXIST (rev (x :: rp')))
      | Some (File _) => throw (SysError EEXIST (rev (x :: rp')))
      end
  end.

Definition mkdirs (p : path) : io unit := mkdirs_rev (rev p).

(** The path checks [copy] makes on each pair it is about to copy. *)
Definition checkPaths (src dest : path) (srcStat : node)
    (destStat : option node) : io unit :=
  (match destStat with
   | Some dn =>
       if decide (src = dest) then throw (SameFile src dest)
       else if is_dir (Some srcStat) && negb (is_dir destStat)
       then throw (DirOverNonDir src dest)
       else if negb (is_dir (Some srcStat)) && is_dir destStat
       then throw (NonDirOverDir src dest)
       else mret ()
   | None => mret ()
   end) ;;
  if is_dir (Some srcStat) && bool_decide (src `prefix_of` dest)
  then throw (IntoItself src dest)
  else mret ().

(** What the walk of [copy] does, one step per entry of the source,
    and one more when it leaves a directory that it has made. *)
Inductive step :=
| Put (rel : path) (n : node)
| Seal (rel : path).

(** Steps are taken depth first: an entry before what is below it, a
    directory sealed after all that is below it, a name before the
    names that follow it.  The order among the names of one directory
    is the one the directory is listed in; it is fixed here, and the
    properties of [copy] below are proved from what the steps can
    touch, whatever their order. *)
Definition key (st : step) : list (option string) :=
  match st with
  | Put rel _ => Some <$> rel
  | Seal rel => (Some <$> rel) ++ [None]
  end.

Fixpoint key_leb (a b : list (option string)) : bool :=
  match a, b with
  | [], _ => true
  | _ :: _, [] => false
  | x :: a', y :: b' =>
      match x, y with
      | None, None => key_leb a' b'
      | None, Some _ => false
      | Some _, None => true
      | Some s, Some t =>
          if Stdlib.Strings.String.eqb s t then key_leb a' b'
          else Stdlib.Strings.String.leb s t
      end
  end.

Definition before (a b : step) : Prop := key_leb (key a) (key b) = true.

#[export] Instance before_dec a b : Decision (before a b).
Proof. unfold before. apply _. Defined.

(** The steps for what is strictly below the source. *)
Definition inner (src dest : path) (t : gmap path node) : list step :=
  entries src t ≫= λ e,
    match e.1 with
    | [] => []
    | _ :: _ =>
        Put e.1 e.2
        :: (if is_dir (Some e.2) && bool_decide (t !! (dest ++ e.1) = None)
            then [Seal e.1] else [])
    end.

(** The whole walk: the source itself, what is below it, and the seal
    of the destination when it is a directory that the walk makes. *)
Definition schedule (src dest : path) (t : gmap path node) (sn : node)
    : list step :=
  Put [] sn
  :: merge_sort before (inner src dest t)
  ++ (if is_dir (Some sn) && bool_decide (t !! dest = None)
      then [Seal []] else []).

(** [onDir]: the directory is made when it is not there, then the
    source is opened. *)
Definition onDir (s p : path) (destStat : option node) : io unit :=
  (match destStat with
   | None => mkdir p
   | Some _ => mret ()
   end) ;;
  opendir s.

(** [onFile], with [overwrite: true]: what is there is unlinked, the
    file is copied and given the mode of the source. *)
Definition onFile (s p : path) (data : bytes) (destStat : option node)
    : io unit :=
  (match destStat with
   | None => mret ()
   | Some _ => unlink p
   end) ;;
  copyFile s p data ;;
  chmod p.

(** [onLink], with [dereference: false]: the link is made anew with the
    same target; over a link it is first checked that neither target
    lies within the other, and over anything else [fs.symlink] fails. *)
Definition onLink (s p t : path) (destStat : option node) : io unit :=
  readlink s ;;
  match destStat with
  | None => symlink t p
  | Some (Symlink t') =>
      if bool_decide (t `prefix_of` t') then throw (IntoItself t t')
      else if bool_decide (t' `prefix_of` t) then throw (OverLink t' t)
      else unlink p ;; symlink t p
  | Some _ => throw (SysError EEXIST p)
  end.

Definition exec (src dest : path) (st : step) : io unit :=
  match st with
  | Put rel n =>
      check (src ++ rel) ;;
      destStat ← lstat (dest ++ rel);
      checkPaths (src ++ rel) (dest ++ rel) n destStat ;;
      match n with
      | Dir => onDir (src ++ rel) (dest ++ rel) destStat
      | File data => onFile (src ++ rel) (dest ++ rel) data destStat
      | Symlink t => onLink (src ++ rel) (dest ++ rel) t destStat
      end
  | Seal rel => chmod (dest ++ rel)
  end.

(** The parent of the destination is created when it is missing. *)
Definition ensureParent (dest : path) : io unit :=
  dirExists ← gets (λ d, pathExists d (Path.dirname dest));
  if dirExists : bool then mret () else mkdirs (Path.dirname dest).

(** [fs-extra]'s [copy(src, dest)].  The tree below [src] is the one
    found when the call is made: [checkPaths] has just refused a
    destination inside a source directory, so nothing the copy writes
    is read back. *)
Definition copy (src dest : path) : io unit :=
  srcStat ← lstat src;
  match srcStat with
  | None => throw (SysError ENOENT src)
  | Some sn =>
      destStat ← lstat dest;
      checkPaths src dest sn destStat ;;
      steps ← gets (λ d, schedule src dest (tree d) sn);
      ensureParent dest ;;
      forM steps (exec src dest)
  end.

(** [m] never changes the disk. *)
Definition quiet {A} (m : io A) : Prop := ∀ d, (m d).2 = d.

(** [t'] is [t] except at [p], where it holds what [t] held, or [n], or
    nothing. *)
Definition local (p : path) (n : node) (t t' : gmap path node) : Prop :=
  (∀ q, q ≠ p → t' !! q = t !! q)
  ∧ (t' !! p = t !! p ∨ t' !! p = Some n ∨ t' !! p = None).

(** [m] changes the disk at most at [p], as [local] says. *)
Definition keeps {A} (p : path) (n : node) (m : io A) : Prop :=
  ∀ d, faults (m d).2 = faults d ∧ denied (m d).2 = denied d
       ∧ local p n (tree d) (tree (m d).2).

(** [d'] is [d] except for entries that steps of [l] have put, or
    unlinked, under [dest]. *)
Definition touched (dest : path) (l : list step) (d d' : disk) : Prop :=
  faults d' = faults d ∧ denied d' = denied d ∧
  ∀ p, tree d' !! p = tree d !! p ∨
       ∃ rel n, Put rel n ∈ l ∧ p = dest ++ rel ∧
                (tree d' !! p = Some n ∨ tree d' !! p = None).

(** [d'] is [d] except for directories on the way to [q] that were
    missing. *)
Definition grown (q : path) (d d' : disk) : Prop :=
  faults d' = faults d ∧ denied d' = denied d ∧
  ∀ p, tree d' !! p = tree d !! p ∨
       (p ≠ [] ∧ p `prefix_of` q ∧ tree d !! p = None
        ∧ tree d' !! p = Some Dir).

(** In a tree every entry but the root sits in a directory. *)
Definition wf (t : gmap path node) : Prop :=
  ∀ p x, is_Some (t !! (p ++ [x])) → t !! p = Some Dir.

(** Nothing at or below [p]. *)
Definition absent (t : gmap path node) (p : path) : Prop := entries p t = [].

#[export] Instance absent_dec t p : Decision (absent t p).
Proof. unfold absent. apply _. Defined.

End Fs.

(** ** The command *)

Module Init.

(** *** Console output *)

Inductive color := blue | gray | yellow | green | cyan | white | red.

(** A [chalk]-coloured string; [+] on such strings is concatenation. *)
Definition styled := list (color * string).
Definition chalk (c : color) (s : string) : styled := [(c, s)].

Inductive arg :=
| Text (s : styled)
| Thrown (e : Fs.error).

Inductive stream := stdout | stderr.

(** What a run does that can be observed from outside: what is written
    to the two streams, the filesystem calls, and the report that Node
    writes to standard error when a rejection is handled by nobody. *)
Inductive event :=
| Console (s : stream) (args : list arg)
| PathExists (p : path) (r : bool)
| Copy (src dest : path) (r : option Fs.error)
| Uncaught (e : Fs.error).

(** *** The process *)

Record process := Process {
  cwd : path;
  __dirname : path;
  env : gmap string string;
  argv : list string
}.

Record state := State {
  st_disk : Fs.disk;
  st_out : list event
}.

Inductive completion (A : Type) :=
| Return (a : A)
| Throw (e : Fs.error)
| Exit (code : Z).
Arguments Return {A} a.
Arguments Throw {A} e.
Arguments Exit {A} code.

Definition M (A : Type) : Type := process → state → completion A * state.

Definition ret {A} (a : A) : M A := λ _ st, (Return a, st).
Definition bind {A B} (k : A → M B) (m : M A) : M B :=
  λ pr st, match m pr st with
           | (Return a, st') => k a pr st'
           | (Throw e, st') => (Throw e, st')
           | (Exit c, st') => (Exit c, st')
           end.

#[export] Instance M_ret : MRet M := @ret.
#[export] Instance M_bind : MBind M := @bind.

(** [try { body } catch (error) { handler }] *)
Definition try_catch {A} (body : M A) (handler : Fs.error → M A) : M A :=
  λ pr st, match body pr st with
           | (Throw e, st') => handler e pr st'
           | r => r
           end.

Definition emit (e : event) : M unit :=
  λ _ st, (Return (), State (st_disk st) (st_out st ++ [e])).

Definition console_log (s : styled) : M unit :=
  emit (Console stdout [Text s]).
Definition console_error (args : list arg) : M unit :=
  emit (Console stderr args).

(** [process.cwd()] throws when the working directory is not there any
    more. *)
Definition process_cwd : M path :=
  λ pr st, if Fs.is_dir (Fs.tree (st_disk st) !! cwd pr)
           then (Return (cwd pr), st)
           else (Throw (Fs.SysError Fs.ENOENT (cwd pr)), st).
Definition dirname : M path := λ pr st, (Return (__dirname pr), st).
Definition process_exit {A} (code : Z) : M A := λ _ st, (Exit code, st).

(** [await fs.pathExists(p)] *)
Definition fs_pathExists (p : path) : M bool :=
  λ _ st, let r := Fs.pathExists (st_disk st) p in
          (Return r, State (st_disk st) (st_out st ++ [PathExists p r])).

(** [await fs.copy(src, dest)] *)
Definition fs_copy (src dest : path) : M unit :=
  λ _ st, match Fs.copy src dest (st_disk st) with
          | (inr _, d) => (Return (), State d (st_out st ++ [Copy src dest None]))
          | (inl e, d) => (Throw e, State d (st_out st ++ [Copy src dest (Some e)]))
          end.

(** *** [src/commands/init.ts] *)

Definition targetDir (pr : process) : path := Path.join (cwd pr) ".claude".
Definition templateDir (pr : process) : path :=
  Path.resolve (__dirname pr) "../../../templates/.claude".

Definition banner : list styled :=
  [ chalk blue "🚀 Initializing GQLify workflow for Claude Code...";
    chalk gray "   NestJS + GraphQL development toolkit
" ].

Definition warning : list styled :=
  [ chalk yellow "⚠️  .claude directory already exists. Skipping initialization.";
    chalk gray "   To reinstall, remove the existing .claude directory first." ].

Definition copying (templateDir : path) : styled :=
  chalk gray ("📦 Copying templates from /" +:+ String.concat "/" templateDir +:+ "...").

Definition success : styled :=
  chalk green "
✅ Successfully created .claude directory!
".

Definition report : list styled :=
  [ chalk cyan "📚 Installed Resources:";
    chalk gray "   • 20 executable skills for code generation";
    chalk gray "   • Architecture & conventions documentation";
    chalk gray "   • Security audit guides";
    chalk gray "   • Testing patterns & templates
";
    chalk cyan "🎯 Available Skills:";
    chalk gray "   Core Generation:";
    chalk white "     /gqlify:generate-module <Entity>  " ++ chalk gray "- Scaffold complete module";
    chalk white "     /gqlify:generate-field <Module>   " ++ chalk gray "- Add DataLoader field";
    chalk white "     /gqlify:add-field <Module>        " ++ chalk gray "- Add entity property";
    chalk gray "
   Advanced Features:";
    chalk white "     /gqlify:add-export <Module>       " ++ chalk gray "- CSV/Excel export";
    chalk white "     /gqlify:add-filter <Module>       " ++ chalk gray "- Advanced filtering";
    chalk white "     /gqlify:add-i18n <Module>         " ++ chalk gray "- Internationalization";
    chalk white "     /gqlify:add-pagination <Module>   " ++ chalk gray "- Paginated responses";
    chalk gray "
   Code Quality:";
    chalk white "     /gqlify:validate [--fix]          " ++ chalk gray "- Validate code patterns";
    chalk white "     /gqlify:audit-security            " ++ chalk gray "- Security audit";
    chalk white "     /gqlify:setup                     " ++ chalk gray "- Verify project setup";
    chalk gray "
   See all 20 skills: ls .claude/skills/
";
    chalk cyan "📖 Next Steps:";
    chalk gray "   1. Read .claude/README.md for overview";
    chalk gray "   2. Review .claude/RULES.md for key constraints";
    chalk gray "   3. Try: /gqlify:generate-module Product";
    chalk gray "   4. Start building with Claude Code!
" ].

Definition troubleshooting (error : Fs.error) : list (list arg) :=
  [ [Text (chalk red "
❌ Error initializing workflow:"); Thrown error];
    [Text (chalk yellow "
💡 Troubleshooting:")];
    [Text (chalk gray "   • Ensure you have write permissions in this directory")];
    [Text (chalk gray "   • Check that GQLify is properly installed")];
    [Text (chalk gray "   • Try running with elevated permissions if needed
")] ].

Fixpoint forM {A} (l : list A) (f : A → M unit) : M unit :=
  match l with
  | [] => mret ()
  | a :: l' => f a ;; forM l' f
  end.

Definition init : M unit :=
  targetDir ← (cwd ← process_cwd; mret (Path.join cwd ".claude"));
  templateDir ← (d ← dirname;
                 mret (Path.resolve d "../../../templates/.claude"));
  forM banner console_log ;;
  try_catch
    (exists_ ← fs_pathExists targetDir;
     if exists_ : bool then
       forM warning console_log
     else
       console_log (copying templateDir) ;;
       fs_copy templateDir targetDir ;;
       console_log success ;;
       forM report console_log)
    (λ error,
       forM (troubleshooting error) console_error ;;
       process_exit 1).

(** *** [bin/gqlify.ts] *)

Record command := Command {
  name : string;
  description : string;
  arguments : list string;
  options : list string;
  action : M unit
}.

Record program := Program {
  program_name : string;
  program_description : string;
  program_version : string;
  commands : list command
}.

Definition gqlify : program :=
  Program "gqlify"
    "CLI to bootstrap NestJS + GraphQL workflows for Claude Code"
    "1.0.0"
    [ Command "init"
        "Initialize the .claude workflow in the current directory"
        [] [] init ].

(** [commander]'s reading of the command line.  A word of more than
    one character that starts with a dash is an option, up to a word
    [--], after which every word is an operand. *)
Definition maybeOption (arg : string) : bool :=
  match arg with
  | String "-" (String _ _) => true
  | _ => false
  end.

Fixpoint parseOptions (args : list string)
    : list string * list string :=
  match args with
  | [] => ([], [])
  | arg :: rest =>
      if decide (arg = "--") then (rest, [])
      else
        let r := parseOptions rest in
        if maybeOption arg then (r.1, arg :: r.2) else (arg :: r.1, r.2)
  end.

(** The options a command knows: the ones it declares. *)
Definition knownOption (c : command) (arg : string) : bool :=
  bool_decide (arg ∈ options c).

(** [program.parse()]: the words after [node] and the script name are
    split into operands and options; the first operand names the
    command; the action of the command is called when every option is
    one that the command declares and when there are no more operands
    than it declares arguments, unless excess arguments are allowed
    ([allowExcessArguments], which is the default of the library up to
    version 12 and not after).  In every other case [commander] prints
    help, the version or an error, and the action is not called. *)
Definition dispatch (allowExcessArguments : bool) (pg : program)
    (args : list string) : option command :=
  let parsed := parseOptions (drop 2 args) in
  match parsed.1 with
  | [] => None
  | sub :: operands =>
      c ← find (λ c, bool_decide (name c = sub)) (commands pg);
      if forallb (knownOption c) parsed.2
         && (allowExcessArguments
             || bool_decide (length operands ≤ length (arguments c))%nat)
      then Some c else None
  end.

(** *** Running the process *)

Record outcome := Outcome {
  exit_code : Z;
  output : list event;
  final : Fs.disk
}.

(** A promise that resolves lets the process end with code 0,
    [process.exit(c)] ends it with [c], and a rejection nobody handles
    is reported by Node on standard error and ends it with 1. *)
Definition finish {A} (r : completion A * state) : outcome :=
  match r.1 with
  | Return _ => Outcome 0 (st_out r.2) (st_disk r.2)
  | Throw e => Outcome 1 (st_out r.2 ++ [Uncaught e]) (st_disk r.2)
  | Exit c => Outcome c (st_out r.2) (st_disk r.2)
  end.

Definition run (m : M unit) (pr : process) (d : Fs.disk) : outcome :=
  finish (m pr (State d [])).

(** The filesystem calls of a run, in order. *)
Definition is_fs_call (ev : event) : bool :=
  match ev with
  | Console _ _ | Uncaught _ => false
  | PathExists _ _ | Copy _ _ _ => true
  end.

Definition fs_calls (l : list event) : list event := List.filter is_fs_call l.

(** *** The four ways a run of [init] can go *)

(** The working directory is gone: [process.cwd()] throws before
    anything is printed, and nothing catches it. *)
Definition crashed (pr : process) (d : Fs.disk) : outcome :=
  Outcome 1 [Uncaught (Fs.SysError Fs.ENOENT (cwd pr))] d.

Definition logs (l : list styled) : list event :=
  (λ s, Console stdout [Text s]) <$> l.
Definition errors (l : list (list arg)) : list event :=
  Console stderr <$> l.

(** The destination was found: banner, check, warning. *)
Definition skipped (pr : process) (d : Fs.disk) : outcome :=
  Outcome 0
    (logs banner ++ [PathExists (targetDir pr) true] ++ logs warning)
    d.

(** The copy returned, leaving the disk [d']. *)
Definition installed (pr : process) (d' : Fs.disk) : outcome :=
  Outcome 0
    (logs banner
     ++ [PathExists (targetDir pr) false;
         Console stdout [Text (copying (templateDir pr))];
         Copy (templateDir pr) (targetDir pr) None;
         Console stdout [Text success]]
     ++ logs report)
    d'.

(** The copy threw [e], leaving the disk [d']. *)
Definition failed (pr : process) (e : Fs.error) (d' : Fs.disk) : outcome :=
  Outcome 1
    (logs banner
     ++ [PathExists (targetDir pr) false;
         Console stdout [Text (copying (templateDir pr))];
         Copy (templateDir pr) (targetDir pr) (Some e)]
     ++ errors (troubleshooting e))
    d'.

(** *** Reading a run *)

(** What a run wrote on one of the two streams, call by call. *)
Definition written (s : stream) (l : list event) : list (list arg) :=
  omap (λ ev, match ev, s with
              | Console stdout args, stdout => Some args
              | Console stderr args, stderr => Some args
              | Uncaught e, stderr => Some [Thrown e]
              | _, _ => None
              end) l.

Definition lines (l : list styled) : list (list arg) := (λ s, [Text s]) <$> l.

(** The disk after [k] runs of [init] in a row. *)
Definition rerun (k : nat) (pr : process) (d : Fs.disk) : Fs.disk :=
  Nat.iter k (λ x, final (run init pr x)) d.

End Init.

(** ** Sample runs *)

Module Sample.
Import Fs Init.

Definition text (s : string) : bytes := String.list_byte_of_string s.

(** The process: [gqlify init] run in [/home/me/proj], the package
    installed under [/opt/gqlify]. *)
Definition pr : process :=
  Process ["home"; "me"; "proj"]
          ["opt"; "gqlify"; "dist"; "src"; "commands"]
          ∅
          ["node"; "/opt/gqlify/dist/bin/gqlify.js"; "init"].

Definition project : gmap path node :=
  list_to_map
    [ ([], Dir); (["home"], Dir); (["home"; "me"], Dir);
      (["home"; "me"; "proj"], Dir);
      (["home"; "me"; "proj"; "package.json"], File (text "{}")) ].

Definition package : gmap path node :=
  list_to_map
    [ (["opt"], Dir); (["opt"; "gqlify"], Dir);
      (["opt"; "gqlify"; "templates"], Dir) ].

(** The template of the specification's scenario. *)
Definition template : gmap path node :=
  list_to_map
    [ (["opt"; "gqlify"; "templates"; ".claude"], Dir);
      (["opt"; "gqlify"; "templates"; ".claude"; "README.md"],
       File (text "# GQLify"));
      (["opt"; "gqlify"; "templates"; ".claude"; "skills"], Dir);
      (["opt"; "gqlify"; "templates"; ".claude"; "skills"; "foo"], Dir);
      (["opt"; "gqlify"; "templates"; ".claude"; "skills"; "foo"; "SKILL.md"],
       File (text "name: foo")) ].

Definition claude : path := ["home"; "me"; "proj"; ".claude"].

(** A project that was never initialised. *)
Definition fresh : disk := Disk (project ∪ package ∪ template) ∅ ∅.

(** [.claude] is there already, as a directory holding a file of the
    user's. *)
Definition initialised : disk :=
  Disk (<[claude ++ ["NOTES.md"] := File (text "mine")]>
          (<[claude := Dir]> (tree fresh))) ∅ ∅.

(** [.claude] is a regular file. *)
Definition regular : disk :=
  Disk (<[claude := File (text "not a directory")]> (tree fresh)) ∅ ∅.

(** [.claude] is a symbolic link to a directory that exists. *)
Definition linked : disk :=
  Disk (<[claude := Symlink ["home"; "me"]]> (tree fresh)) ∅ ∅.

(** [.claude] is a symbolic link to a path that does not exist. *)
Definition dangling : disk :=
  Disk (<[claude := Symlink ["home"; "me"; "gone"]]> (tree fresh)) ∅ ∅.

(** [.claude] cannot be reached: the project directory may not be
    searched. *)
Definition readonly : disk := Disk (tree fresh) {[ claude := EACCES ]} ∅.

(** [.claude] is there, and cannot be reached. *)
Definition unsearchable : disk :=
  Disk (tree initialised) {[ claude := EACCES ]} ∅.

(** Nothing may be created in the project directory. *)
Definition locked : disk :=
  Disk (tree fresh) ∅ {[ (Write, claude) := EACCES ]}.

(** The disk fills up while the second file is written. *)
Definition full : disk :=
  Disk (tree fresh) ∅
       {[ (Write, claude ++ ["skills"; "foo"; "SKILL.md"]) := ENOSPC ]}.

(** The package lost its template. *)
Definition broken : disk := Disk (project ∪ package) ∅ ∅.

(** [.claude] is there, and the package lost its template. *)
Definition initialised_broken : disk :=
  Disk (<[claude := Dir]> (tree broken)) ∅ ∅.

(** [.claude] is there and cannot be reached, and the package lost its
    template. *)
Definition unsearchable_broken : disk :=
  Disk (tree initialised_broken) {[ claude := EACCES ]} ∅.

(** A package whose template path is a regular file, and a project
    whose [.claude] is a link to nowhere. *)
Definition odd : disk :=
  Disk (<[claude := Symlink ["home"; "me"; "gone"]]>
          (<[["opt"; "gqlify"; "templates"; ".claude"] := File (text "?")]>
             (project ∪ package))) ∅ ∅.

(** The project directory was removed while the shell stayed in it. *)
Definition gone : disk :=
  Disk (delete ["home"; "me"; "proj"; "package.json"]
          (delete ["home"; "me"; "proj"] (tree fresh))) ∅ ∅.

(** The same command run in the [templates] directory of the package,
    and in the template itself. *)
Definition pr_templates : process :=
  Process ["opt"; "gqlify"; "templates"] (__dirname pr) ∅ (argv pr).

Definition pr_inside : process :=
  Process ["opt"; "gqlify"; "templates"; ".claude"; "skills"]
          (__dirname pr) ∅ (argv pr).

(** A package whose template is an empty directory. *)
Definition bare : disk :=
  Disk (<[["opt"; "gqlify"; "templates"; ".claude"] := Dir]> (project ∪ package))
       ∅ ∅.

(** The same, and the template may not be listed. *)
Definition bare_unreadable : disk :=
  Disk (tree bare) ∅
       {[ (Read, ["opt"; "gqlify"; "templates"; ".claude"]) := EACCES ]}.

End Sample.

(** * Properties *)

(** ** Paths *)

Module PathFacts.

Lemma join_claude (c : path) : Path.join c ".claude" = c ++ [".claude"].
Proof. reflexivity. Qed.

Lemma resolve_template (d : path) :
  Path.resolve d "../../../templates/.claude"
  = removelast (removelast (removelast d)) ++ ["templates"; ".claude"].
Proof.
  unfold Path.resolve, Path.normalize.
  change (Path.split _) with ["..";"..";"..";"templates";".claude"].
  cbn.
  change ((removelast (removelast (removelast d)) ++ ["templates"]) ++ [".claude"]
          = removelast (removelast (removelast d)) ++ ["templates"; ".claude"]).
  by rewrite <- app_assoc.
Qed.

Lemma dirname_snoc (c : path) (x : string) : Path.dirname (c ++ [x]) = c.
Proof. unfold Path.dirname. apply removelast_last. Qed.

End PathFacts.

(** ** The filesystem calls *)

Module FsFacts.
Import Fs.

Lemma strip_Some (src p rel : path) : strip src p = Some rel ↔ p = src ++ rel.
Proof.
  revert p. induction src as [|x src IH]; intros p; simpl.
  - split; congruence.
  - destruct p as [|y p]; [split; discriminate|].
    destruct (decide (x = y)) as [->|Hne].
    + rewrite IH. split; congruence.
    + split; [discriminate|]. intros [= ? ?]. done.
Qed.

Lemma elem_of_entries (src : path) (t : gmap path node) (rel : path) (n : node) :
  (rel, n) ∈ entries src t ↔ t !! (src ++ rel) = Some n.
Proof.
  unfold entries. rewrite list_elem_of_omap. split.
  - intros ([p m] & Hin & Hf). simpl in Hf.
    apply elem_of_map_to_list in Hin.
    destruct (strip src p) as [rel'|] eqn:Hs; simplify_eq/=.
    apply strip_Some in Hs. by subst.
  - intros Hl. exists (src ++ rel, n). split.
    + by apply elem_of_map_to_list.
    + simpl. by rewrite (proj2 (strip_Some src (src ++ rel) rel) eq_refl).
Qed.

Lemma absent_lookup (t : gmap path node) (p rel : path) :
  absent t p → t !! (p ++ rel) = None.
Proof.
  unfold absent. intros Hw. destruct (t !! (p ++ rel)) as [n|] eqn:Hl; [|done].
  apply elem_of_entries in Hl. rewrite Hw in Hl. by apply elem_of_nil in Hl.
Qed.

Lemma lookup_absent (t : gmap path node) (p : path) :
  (∀ rel, t !! (p ++ rel) = None) → absent t p.
Proof.
  unfold absent. intros Hn.
  destruct (entries p t) as [|[rel n] l] eqn:Hw; [done|].
  assert ((rel, n) ∈ entries p t) as Hin by (rewrite Hw; left).
  apply elem_of_entries in Hin. by rewrite Hn in Hin.
Qed.

(** In a tree, nothing is below a path at which nothing is. *)
Lemma wf_absent (t : gmap path node) (p : path) :
  wf t → t !! p = None → absent t p.
Proof.
  intros Hwf Hp. apply lookup_absent. intros rel.
  induction rel as [|x rel IH] using rev_ind; [by rewrite app_nil_r|].
  destruct (t !! (p ++ rel ++ [x])) as [n|] eqn:Hl; [|done].
  rewrite app_assoc in Hl. rewrite (Hwf (p ++ rel) x) in IH; [done|eauto].
Qed.

(** The steps of the walk that put an entry are the entries of the
    source, each at its relative path. *)
Lemma elem_of_inner src dest t rel n :
  Put rel n ∈ inner src dest t ↔ rel ≠ [] ∧ t !! (src ++ rel) = Some n.
Proof.
  unfold inner. rewrite list_elem_of_bind. split.
  - intros ([rel' n'] & Hin & He%elem_of_entries). simpl in Hin.
    destruct rel' as [|x rel']; [by apply elem_of_nil in Hin|].
    apply elem_of_cons in Hin as [[= -> ->]|Hin]; [done|].
    case_match; [|by apply elem_of_nil in Hin].
    by apply list_elem_of_singleton in Hin.
  - intros [Hne Hl]. exists (rel, n). split; [|by apply elem_of_entries].
    simpl. destruct rel; [done|]. left.
Qed.

Lemma elem_of_schedule src dest t sn rel n :
  t !! src = Some sn →
  Put rel n ∈ schedule src dest t sn ↔ t !! (src ++ rel) = Some n.
Proof.
  intros Hsrc. unfold schedule.
  rewrite elem_of_cons, elem_of_app, merge_sort_Permutation, elem_of_inner.
  split.
  - intros [[= -> ->]|[[_ ?]|Hin]]; [by rewrite app_nil_r|done|].
    case_match; [|by apply elem_of_nil in Hin].
    by apply list_elem_of_singleton in Hin.
  - intros Hl. destruct rel as [|x rel].
    + left. rewrite app_nil_r in Hl. congruence.
    + right; left. done.
Qed.

(** After the source itself, the walk has no other step for it. *)
Lemma schedule_tail src dest t sn n :
  Put [] n ∉ merge_sort before (inner src dest t)
               ++ (if is_dir (Some sn) && bool_decide (t !! dest = None)
                   then [Seal []] else []).
Proof.
  rewrite elem_of_app, merge_sort_Permutation, elem_of_inner.
  intros [[? _]|Hin]; [done|].
  case_match; [|by apply elem_of_nil in Hin].
  by apply list_elem_of_singleton in Hin.
Qed.

Ltac run_io :=
  unfold exec, onDir, onFile, onLink, checkPaths, lstat, mkdir, opendir,
    copyFile, readlink, symlink, unlink, chmod, check, permit, gets, modify,
    throw, mbind, io_bind, bind, mret, io_ret, ret in *; simpl in *.

Lemma forM_cons {A} (f : A → io unit) a l d :
  forM (a :: l) f d
  = match f a d with
    | (inr _, d') => forM l f d'
    | (inl e, d') => (inl e, d')
    end.
Proof. reflexivity. Qed.

Lemma head_subseteq {A} (a : A) (l : list A) : [a] ⊆ a :: l.
Proof. intros x ->%list_elem_of_singleton. left. Qed.

Lemma tail_subseteq {A} (a : A) (l : list A) : l ⊆ a :: l.
Proof. intros x Hx. by right. Qed.

Lemma touched_refl dest l d : touched dest l d d.
Proof. split; [done|]. split; [done|]. intros p. by left. Qed.

Lemma touched_trans dest l d1 d2 d3 :
  touched dest l d1 d2 → touched dest l d2 d3 → touched dest l d1 d3.
Proof.
  intros (Hf1 & Hd1 & H1) (Hf2 & Hd2 & H2).
  split; [congruence|]. split; [congruence|]. intros p.
  destruct (H2 p) as [Heq|He]; [|by right].
  rewrite Heq. apply H1.
Qed.

Lemma touched_mono dest l l' d d' :
  l ⊆ l' → touched dest l d d' → touched dest l' d d'.
Proof.
  intros Hsub (Hf & Hd & H). split; [done|]. split; [done|]. intros p.
  destruct (H p) as [? | (rel & n & ? & ?)]; [by left|right].
  exists rel, n. split; [auto|done].
Qed.

(** *** Calls that change nothing, and calls that change one path *)

Lemma quiet_ret {A} (a : A) : quiet (mret a : io A).
Proof. by intros d. Qed.

Lemma quiet_throw {A} e : quiet (throw e : io A).
Proof. by intros d. Qed.

Lemma quiet_gets {A} (f : disk → A) : quiet (gets f).
Proof. by intros d. Qed.

Lemma quiet_check p : quiet (check p).
Proof. intros d. unfold check. by destruct (faults d !! p). Qed.

Lemma quiet_permit o p : quiet (permit o p).
Proof. intros d. unfold permit. by destruct (denied d !! (o, p)). Qed.

Lemma quiet_bind {A B} (m : io A) (k : A → io B) :
  quiet m → (∀ a, quiet (k a)) → quiet (m ≫= k).
Proof.
  intros Hm Hk d. unfold mbind, io_bind, bind.
  specialize (Hm d). destruct (m d) as [[e|a] d1]; simpl in *; subst; [done|].
  apply Hk.
Qed.

Lemma quiet_if {A} (b : bool) (m1 m2 : io A) :
  quiet m1 → quiet m2 → quiet (if b then m1 else m2).
Proof. by destruct b. Qed.

Create HintDb io.
#[local] Hint Resolve quiet_ret quiet_throw quiet_gets quiet_check
  quiet_permit quiet_if : io.
#[local] Hint Extern 2 (quiet (_ ≫= _)) =>
  apply quiet_bind; [|intros ?] : io.

Lemma quiet_lstat p : quiet (lstat p).
Proof. unfold lstat. auto with io. Qed.

Lemma quiet_opendir p : quiet (opendir p).
Proof. unfold opendir. auto with io. Qed.

Lemma quiet_readlink p : quiet (readlink p).
Proof. unfold readlink. auto with io. Qed.

Lemma quiet_chmod p : quiet (chmod p).
Proof. unfold chmod. auto with io. Qed.

Lemma quiet_checkPaths src dest sn ds : quiet (checkPaths src dest sn ds).
Proof.
  unfold checkPaths. apply quiet_bind.
  - destruct ds; repeat case_match; auto with io.
  - intros _. case_match; auto with io.
Qed.

#[local] Hint Resolve quiet_lstat quiet_opendir quiet_readlink quiet_chmod
  quiet_checkPaths : io.

Lemma local_refl p n t : local p n t t.
Proof. split; [done|by left]. Qed.

Lemma local_trans p n t1 t2 t3 :
  local p n t1 t2 → local p n t2 t3 → local p n t1 t3.
Proof.
  intros [Ho1 Hp1] [Ho2 Hp2]. split.
  - intros q Hq. by rewrite Ho2, Ho1.
  - destruct Hp2 as [->|?]; auto.
Qed.

Lemma keeps_quiet {A} p n (m : io A) : quiet m → keeps p n m.
Proof. intros Hm d. rewrite Hm. split; [done|]. split; [done|apply local_refl]. Qed.

Lemma keeps_bind {A B} p n (m : io A) (k : A → io B) :
  keeps p n m → (∀ a, keeps p n (k a)) → keeps p n (m ≫= k).
Proof.
  intros Hm Hk d. unfold mbind, io_bind, bind.
  destruct (Hm d) as (Hf & Hd & Hl).
  destruct (m d) as [[e|a] d1]; simpl in *; [done|].
  destruct (Hk a d1) as (Hf' & Hd' & Hl').
  split; [congruence|]. split; [congruence|]. by eapply local_trans.
Qed.

Lemma keeps_insert p n : keeps p n (modify (insert p n)).
Proof.
  intros d. simpl. split; [done|]. split; [done|]. split.
  - intros q Hq. by rewrite lookup_insert_ne.
  - right; left. by rewrite lookup_insert_eq.
Qed.

Lemma keeps_delete p n : keeps p n (modify (delete p)).
Proof.
  intros d. simpl. split; [done|]. split; [done|]. split.
  - intros q Hq. by rewrite lookup_delete_ne.
  - right; right. by rewrite lookup_delete_eq.
Qed.

#[local] Hint Resolve keeps_insert keeps_delete : io.
#[local] Hint Extern 2 (keeps _ _ (_ ≫= _)) =>
  apply keeps_bind; [|intros ?] : io.
#[local] Hint Extern 5 (keeps _ _ _) => apply keeps_quiet : io.

Lemma keeps_mkdir p : keeps p Dir (mkdir p).
Proof. unfold mkdir. auto 10 with io. Qed.

Lemma keeps_copyFile s p data : keeps p (File data) (copyFile s p data).
Proof. unfold copyFile. auto 10 with io. Qed.

Lemma keeps_symlink t p : keeps p (Symlink t) (symlink t p).
Proof. unfold symlink. auto 10 with io. Qed.

Lemma keeps_unlink p n : keeps p n (unlink p).
Proof. unfold unlink. auto 10 with io. Qed.

#[local] Hint Resolve keeps_mkdir keeps_copyFile keeps_symlink keeps_unlink : io.

(** A step that puts an entry changes the disk at most where the entry
    goes; a seal changes nothing. *)
Lemma keeps_put src dest rel n :
  keeps (dest ++ rel) n (exec src dest (Put rel n)).
Proof.
  unfold exec. apply keeps_bind; [auto with io|intros _].
  apply keeps_bind; [auto with io|intros ds].
  apply keeps_bind; [auto with io|intros _].
  destruct n as [data| |t]; unfold onFile, onDir, onLink.
  - destruct ds; auto 10 with io.
  - destruct ds; auto 10 with io.
  - apply keeps_bind; [auto with io|intros _].
    destruct ds as [[]|]; auto 10 with io.
    repeat case_match; auto 10 with io.
Qed.

Lemma quiet_seal src dest rel : quiet (exec src dest (Seal rel)).
Proof. simpl. auto with io. Qed.

Lemma exec_touched src dest st d :
  touched dest [st] d (exec src dest st d).2.
Proof.
  destruct st as [rel n|rel].
  - destruct (keeps_put src dest rel n d) as (Hf & Hd & Ho & Hp).
    split; [done|]. split; [done|]. intros p.
    destruct (decide (p = dest ++ rel)) as [->|Hne]; [|left; by apply Ho].
    destruct Hp as [?|Hp]; [by left|right].
    exists rel, n. split; [left|]. done.
  - rewrite quiet_seal. apply touched_refl.
Qed.

Lemma forM_touched src dest l d :
  touched dest l d (forM l (exec src dest) d).2.
Proof.
  revert d. induction l as [|st l IH]; intros d; [apply touched_refl|].
  rewrite forM_cons.
  pose proof (exec_touched src dest st d) as H1.
  destruct (exec src dest st d) as [[err|[]] d1]; simpl in *.
  - eapply touched_mono; [|exact H1]. apply head_subseteq.
  - eapply touched_trans.
    + eapply touched_mono; [|exact H1]. apply head_subseteq.
    + eapply touched_mono; [|apply IH]. apply tail_subseteq.
Qed.

(** *** Calls that return *)

Lemma bind_ok {A B} (m : io A) (k : A → io B) d b d' :
  (m ≫= k) d = (inr b, d') →
  ∃ a d1, m d = (inr a, d1) ∧ k a d1 = (inr b, d').
Proof.
  unfold mbind, io_bind, bind. destruct (m d) as [[e|a] d1]; [done|]. eauto.
Qed.

Lemma quiet_ok {A} (m : io A) d r d' : quiet m → m d = (r, d') → d' = d.
Proof. intros Hm Hrun. specialize (Hm d). by rewrite Hrun in Hm. Qed.

Lemma check_ok p d u d' : check p d = (inr u, d') → faults d !! p = None.
Proof. unfold check. by destruct (faults d !! p). Qed.

Lemma lstat_ok p d st d' :
  lstat p d = (inr st, d') →
  d' = d ∧ st = tree d !! p ∧ faults d !! p = None.
Proof.
  intros Hrun. pose proof (quiet_ok _ _ _ _ (quiet_lstat p) Hrun) as ->.
  apply bind_ok in Hrun as (u & d1 & Hc & Hg).
  pose proof (quiet_ok _ _ _ _ (quiet_check p) Hc) as ->.
  apply check_ok in Hc. unfold gets in Hg. by simplify_eq.
Qed.

Lemma checkPaths_ok src dest sn ds d u d' :
  checkPaths src dest sn ds d = (inr u, d') →
  d' = d
  ∧ (sn = Dir → ds = None ∨ ds = Some Dir)
  ∧ (sn ≠ Dir → ds ≠ Some Dir)
  ∧ (sn = Dir → ¬ src `prefix_of` dest)
  ∧ (is_Some ds → src ≠ dest).
Proof.
  intros Hrun.
  pose proof (quiet_ok _ _ _ _ (quiet_checkPaths src dest sn ds) Hrun) as ->.
  split; [done|]. revert Hrun. unfold checkPaths, throw.
  unfold mbind, io_bind, bind, mret, io_ret, ret.
  destruct ds as [[]|], sn; simpl;
    destruct (decide (src = dest)); simpl;
    try destruct (bool_decide (src `prefix_of` dest)) eqn:Hpre; simpl;
    try apply bool_decide_eq_false in Hpre;
    intros [=]; repeat split; try done; auto; try (by intros [? [=]]).
Qed.

Lemma modify_ok f d u d' :
  modify f d = (inr u, d') → tree d' = f (tree d).
Proof. unfold modify. intros Hrun. by simplify_eq. Qed.

Lemma write_ok p (m : io unit) n d u d' :
  m = (check p ;; permit Write p ;; modify (insert p n)) →
  m d = (inr u, d') → tree d' !! p = Some n.
Proof.
  intros -> Hrun.
  apply bind_ok in Hrun as (? & d1 & H1 & Hrun).
  pose proof (quiet_ok _ _ _ _ (quiet_check p) H1) as ->.
  apply bind_ok in Hrun as (? & d2 & H2 & Hrun).
  pose proof (quiet_ok _ _ _ _ (quiet_permit Write p) H2) as ->.
  apply modify_ok in Hrun. by rewrite Hrun, lookup_insert_eq.
Qed.

Lemma mkdir_ok p d u d' : mkdir p d = (inr u, d') → tree d' !! p = Some Dir.
Proof. by apply write_ok. Qed.

Lemma symlink_ok t p d u d' :
  symlink t p d = (inr u, d') → tree d' !! p = Some (Symlink t).
Proof. by apply write_ok. Qed.

Lemma copyFile_ok s p data d u d' :
  copyFile s p data d = (inr u, d') → tree d' !! p = Some (File data).
Proof.
  intros Hrun. unfold copyFile in Hrun.
  apply bind_ok in Hrun as (? & d1 & H1 & Hrun).
  pose proof (quiet_ok _ _ _ _ (quiet_check s) H1) as ->.
  apply bind_ok in Hrun as (? & d2 & H2 & Hrun).
  pose proof (quiet_ok _ _ _ _ (quiet_permit Read s) H2) as ->.
  by eapply write_ok.
Qed.

(** A step that returns has put its entry. *)
Lemma exec_ok src dest rel n d u d' :
  exec src dest (Put rel n) d = (inr u, d') →
  tree d' !! (dest ++ rel) = Some n.
Proof.
  intros Hrun. simpl in Hrun.
  apply bind_ok in Hrun as (? & d1 & H1 & Hrun).
  pose proof (quiet_ok _ _ _ _ (quiet_check _) H1) as ->.
  apply bind_ok in Hrun as (ds & d2 & H2 & Hrun).
  apply lstat_ok in H2 as (-> & -> & _).
  apply bind_ok in Hrun as (? & d3 & H3 & Hrun).
  apply checkPaths_ok in H3 as (-> & Hdir & Hnondir & _).
  destruct n as [data| |t].
  - unfold onFile in Hrun.
    apply bind_ok in Hrun as (? & d4 & _ & Hrun).
    apply bind_ok in Hrun as (? & d5 & H5 & Hrun).
    pose proof (quiet_ok _ _ _ _ (quiet_chmod _) Hrun) as ->.
    by eapply copyFile_ok.
  - unfold onDir in Hrun.
    apply bind_ok in Hrun as (? & d4 & H4 & Hrun).
    pose proof (quiet_ok _ _ _ _ (quiet_opendir _) Hrun) as ->.
    destruct (tree d !! (dest ++ rel)) as [dn|] eqn:Hl.
    + destruct (Hdir eq_refl) as [|[= ->]]; [done|].
      unfold mret, io_ret, ret in H4. by simplify_eq.
    + by eapply mkdir_ok.
  - unfold onLink in Hrun.
    apply bind_ok in Hrun as (? & d4 & H4 & Hrun).
    pose proof (quiet_ok _ _ _ _ (quiet_readlink _) H4) as ->.
    destruct (tree d !! (dest ++ rel)) as [[| |t']|]; try done.
    + repeat case_match; try done.
      apply bind_ok in Hrun as (? & d5 & _ & Hrun). by eapply symlink_ok.
    + by eapply symlink_ok.
Qed.

(** A walk that returns has put every one of its entries. *)
Lemma forM_ok src dest l d d' :
  (∀ rel n1 n2, Put rel n1 ∈ l → Put rel n2 ∈ l → n1 = n2) →
  forM l (exec src dest) d = (inr (), d') →
  ∀ rel n, Put rel n ∈ l → tree d' !! (dest ++ rel) = Some n.
Proof.
  revert d. induction l as [|st l IH]; intros d Hfun Hrun rel n Hin.
  { by apply elem_of_nil in Hin. }
  rewrite forM_cons in Hrun.
  destruct (exec src dest st d) as [[err|[]] d1] eqn:He; [done|].
  assert (∀ rel n, Put rel n ∈ l → tree d' !! (dest ++ rel) = Some n) as Htail.
  { eapply IH; [|done]. intros ??? ??. eapply Hfun; by right. }
  apply elem_of_cons in Hin as [<-|?]; [|by apply Htail].
  apply exec_ok in He.
  pose proof (forM_touched src dest l d1) as (_ & _ & Ht). rewrite Hrun in Ht.
  simpl in Ht.
  destruct (Ht (dest ++ rel)) as [->|(rel' & n' & Hin' & Heq & _)]; [done|].
  apply app_inv_head in Heq as <-.
  assert (n = n') as -> by (eapply Hfun; [left|by right]). by apply Htail.
Qed.

(** *** The parent of the destination *)

Lemma disk_eq d d' :
  tree d' = tree d → faults d' = faults d → denied d' = denied d → d' = d.
Proof. destruct d, d'. simpl. by intros -> -> ->. Qed.

Lemma grown_refl q d : grown q d d.
Proof. split; [done|]. split; [done|]. intros p. by left. Qed.

Lemma grown_trans q d1 d2 d3 :
  grown q d1 d2 → grown q d2 d3 → grown q d1 d3.
Proof.
  intros (Hf1 & Hd1 & H1) (Hf2 & Hd2 & H2).
  split; [congruence|]. split; [congruence|]. intros p.
  destruct (H2 p) as [Heq|(Hne & Hpre & Hn & Hd)].
  - rewrite Heq. apply H1.
  - destruct (H1 p) as [Heq|(_ & _ & Hn1 & _)]; [|by right].
    right. by rewrite <- Heq.
Qed.

Lemma grown_mono q q' d d' : q `prefix_of` q' → grown q d d' → grown q' d d'.
Proof.
  intros Hq (Hf & Hd & H). split; [done|]. split; [done|]. intros p.
  destruct (H p) as [? | (? & ? & ? & ?)]; [by left|right].
  repeat split; try done. by etrans.
Qed.

Lemma mkdirs_rev_grown rp d : grown (rev rp) d (mkdirs_rev rp d).2.
Proof.
  revert d. induction rp as [|x rp IH]; intros d; [apply grown_refl|].
  cbn [mkdirs_rev]. unfold mbind at 1, io_bind, bind at 1.
  destruct (lstat (rev (x :: rp)) d) as [[e|st] d1] eqn:Hl.
  { rewrite (quiet_ok _ _ _ _ (quiet_lstat _) Hl). apply grown_refl. }
  apply lstat_ok in Hl as (-> & -> & _).
  destruct (tree d !! rev (x :: rp)) as [[| |t]|] eqn:Hp.
  - apply grown_refl.
  - apply grown_refl.
  - rewrite (quiet_ok _ _ _ (_ d).2 (quiet_bind _ _ (quiet_gets _)
      (λ ok : bool, quiet_if ok _ _ (quiet_ret ()) (quiet_throw _)))
      (surjective_pairing _)).
    apply grown_refl.
  - unfold mbind, io_bind, bind.
    pose proof (IH d) as Hg.
    destruct (mkdirs_rev rp d) as [[e|[]] d1]; simpl in *.
    { eapply grown_mono; [|done]. by apply prefix_app_r. }
    eapply grown_trans.
    { eapply grown_mono; [|exact Hg]. by apply prefix_app_r. }
    destruct (keeps_mkdir (rev rp ++ [x]) d1) as (Hf & Hd & Ho & Hat).
    split; [done|]. split; [done|]. intros p.
    destruct (decide (p = rev rp ++ [x])) as [->|Hne]; [|left; by apply Ho].
    destruct Hat as [?|[Hat|Hat]]; [by left| |].
    + destruct (tree d1 !! (rev rp ++ [x])) eqn:Hd1; [left|right].
      * destruct Hg as (_ & _ & Hg).
        destruct (Hg (rev rp ++ [x])) as [Heq|(_ & _ & _ & ?)]; congruence.
      * repeat split; try done. by destruct (rev rp).
    + destruct (tree d1 !! (rev rp ++ [x])) eqn:Hd1; [|by left].
      destruct Hg as (_ & _ & Hg).
      destruct (Hg (rev rp ++ [x])) as [Heq|(_ & [k Hk] & _)]; [congruence|].
      apply (f_equal length) in Hk. rewrite !length_app in Hk. simpl in Hk. lia.
Qed.

Lemma ensureParent_grown dest d :
  grown (Path.dirname dest) d (ensureParent dest d).2.
Proof.
  unfold ensureParent, gets, mbind, io_bind, bind. simpl.
  destruct (pathExists d (Path.dirname dest)); [apply grown_refl|].
  unfold mkdirs.
  rewrite <- (rev_involutive (Path.dirname dest)) at 1.
  apply mkdirs_rev_grown.
Qed.

(** A parent that is a directory is left alone. *)
Lemma ensureParent_dir dest d :
  tree d !! Path.dirname dest = Some Dir → (ensureParent dest d).2 = d.
Proof.
  intros Hdir. unfold ensureParent, gets, mbind, io_bind, bind. simpl.
  destruct (pathExists d (Path.dirname dest)); [done|].
  unfold mkdirs. destruct (rev (Path.dirname dest)) as [|x rp] eqn:Hrev; [done|].
  cbn [mkdirs_rev]. rewrite <- Hrev, rev_involutive.
  unfold mbind, io_bind, bind.
  destruct (lstat (Path.dirname dest) d) as [[e|st] d1] eqn:Hl.
  { by rewrite (quiet_ok _ _ _ _ (quiet_lstat _) Hl). }
  apply lstat_ok in Hl as (-> & -> & _). by rewrite Hdir.
Qed.

(** Nothing at or below the destination is on the way to its parent. *)
Lemma not_on_the_way dest rel :
  dest ++ rel ≠ [] → ¬ dest ++ rel `prefix_of` Path.dirname dest.
Proof.
  intros Hne [k Hk]. destruct dest as [|x dest _] using rev_ind.
  - by destruct rel.
  - rewrite PathFacts.dirname_snoc in Hk. apply (f_equal length) in Hk.
    rewrite !length_app in Hk. simpl in Hk. lia.
Qed.

Lemma grown_below dest d d' rel :
  grown (Path.dirname dest) d d' →
  tree d' !! (dest ++ rel) = tree d !! (dest ++ rel).
Proof.
  intros (_ & _ & Hg).
  destruct (Hg (dest ++ rel)) as [? | (Hne & Hpre & _)]; [done|].
  by apply not_on_the_way in Hpre.
Qed.

(** *** [copy] *)

(** [copy] either throws from its checks, before touching anything, or
    goes on to create the parent and walk the source. *)
Lemma copy_cases src dest d :
  (∃ e, copy src dest d = (inl e, d))
  ∨ (∃ sn, tree d !! src = Some sn
           ∧ faults d !! src = None ∧ faults d !! dest = None
           ∧ (sn = Dir → ¬ src `prefix_of` dest)
           ∧ (is_Some (tree d !! dest) → src ≠ dest)
           ∧ (sn = Dir → tree d !! dest = None ∨ tree d !! dest = Some Dir)
           ∧ copy src dest d
             = (ensureParent dest ;;
                forM (schedule src dest (tree d) sn) (exec src dest)) d).
Proof.
  unfold copy. unfold mbind at 1, io_bind, bind at 1.
  destruct (lstat src d) as [[e|st] d1] eqn:Hs.
  { left. exists e. by rewrite (quiet_ok _ _ _ _ (quiet_lstat _) Hs). }
  pose proof Hs as Hs'. apply lstat_ok in Hs as (-> & -> & Hfs).
  destruct (tree d !! src) as [sn|] eqn:Hsrc; [|left; by eexists].
  unfold mbind at 1, io_bind, bind at 1.
  destruct (lstat dest d) as [[e|st] d1] eqn:Hd.
  { left. exists e. by rewrite (quiet_ok _ _ _ _ (quiet_lstat _) Hd). }
  pose proof Hd as Hd'. apply lstat_ok in Hd as (-> & -> & Hfd).
  unfold mbind at 1, io_bind, bind at 1.
  destruct (checkPaths src dest sn (tree d !! dest) d) as [[e|[]] d1] eqn:Hc.
  { left. exists e. by rewrite (quiet_ok _ _ _ _ (quiet_checkPaths _ _ _ _) Hc). }
  pose proof Hc as Hc'.
  apply checkPaths_ok in Hc as (-> & Hdir & _ & Hpre & Hsame).
  right. exists sn.
  split; [done|]. split; [done|]. split; [done|]. split; [done|].
  split; [done|]. split; [done|].
  unfold mbind, io_bind, bind. by rewrite Hs', Hd', Hc'.
Qed.

(** What a call of [copy], returning or throwing, can have done to the
    disk: created missing directories on the way to the parent of
    [dest], and put (or unlinked) entries of the source at the same
    relative path under [dest]. *)
Lemma copy_changes src dest d :
  let d' := (copy src dest d).2 in
  faults d' = faults d ∧ denied d' = denied d ∧
  ∀ p, tree d' !! p = tree d !! p
       ∨ (tree d !! Path.dirname dest ≠ Some Dir
          ∧ tree d !! p = None ∧ tree d' !! p = Some Dir)
       ∨ (∃ rel n, p = dest ++ rel ∧ tree d !! (src ++ rel) = Some n
                   ∧ (tree d' !! p = Some n ∨ tree d' !! p = None)).
Proof.
  destruct (copy_cases src dest d)
    as [[e ->] | (sn & Hsrc & _ & _ & _ & _ & _ & ->)].
  { simpl. split; [done|]. split; [done|]. intros p. by left. }
  pose proof (λ rel n, elem_of_schedule src dest (tree d) sn rel n Hsrc)
    as Hsched.
  remember (schedule src dest (tree d) sn) as steps eqn:Hsteps. clear Hsteps.
  unfold mbind, io_bind, bind.
  pose proof (ensureParent_grown dest d) as (Hf1 & Hd1 & Hg).
  assert (tree d !! Path.dirname dest ≠ Some Dir ∨ (ensureParent dest d).2 = d)
    as Hparent.
  { destruct (tree d !! Path.dirname dest) as [[]|] eqn:Hp; try by left.
    right. by apply ensureParent_dir. }
  destruct (ensureParent dest d) as [[e|[]] d1]; simpl in *.
  { split; [done|]. split; [done|]. intros p.
    destruct (Hg p) as [? | (_ & _ & ? & ?)]; [by left|right; left].
    destruct Hparent as [? | ->]; [done|congruence]. }
  pose proof (forM_touched src dest steps d1) as (Hf2 & Hd2 & Ht).
  split; [congruence|]. split; [congruence|]. intros p.
  destruct (Ht p) as [Heq|(rel & n & Hin & -> & Hcase)].
  - rewrite Heq.
    destruct (Hg p) as [? | (_ & _ & ? & ?)]; [by left|right; left].
    destruct Hparent as [? | ->]; [done|congruence].
  - right; right. exists rel, n. by apply Hsched in Hin.
Qed.

(** A call of [copy] that returns has put a copy of every entry of the
    source, and nothing else, under [dest]; its two paths could be
    reached. *)
Lemma copy_ok src dest d d' :
  copy src dest d = (inr (), d') →
  is_Some (tree d !! src) ∧ faults d !! dest = None ∧
  ∀ rel, tree d' !! (dest ++ rel)
         = match tree d !! (src ++ rel) with
           | Some n => Some n
           | None => tree d !! (dest ++ rel)
           end.
Proof.
  destruct (copy_cases src dest d)
    as [[e ->] | (sn & Hsrc & _ & Hfd & _ & _ & _ & ->)]; [done|].
  pose proof (λ rel n, elem_of_schedule src dest (tree d) sn rel n Hsrc)
    as Hsched.
  remember (schedule src dest (tree d) sn) as steps eqn:Hsteps. clear Hsteps.
  unfold mbind, io_bind, bind. intros Hrun.
  split; [by eauto|]. split; [done|]. intros rel.
  pose proof (ensureParent_grown dest d) as Hg.
  destruct (ensureParent dest d) as [[e|[]] d1]; [done|]. simpl in *.
  destruct (tree d !! (src ++ rel)) as [n|] eqn:Hl.
  - eapply forM_ok; [|done|by apply Hsched].
    intros r n1 n2 H1 H2. apply Hsched in H1, H2; congruence.
  - pose proof (forM_touched src dest steps d1) as (_ & _ & Ht).
    rewrite Hrun in Ht. simpl in Ht.
    destruct (Ht (dest ++ rel)) as [Heq|(rel' & n' & Hin & Heq & _)].
    + rewrite Heq. by apply grown_below.
    + apply app_inv_head in Heq as <-.
      apply Hsched in Hin; congruence.
Qed.

(** A directory is never copied over something that is not one: the
    checks throw, and the disk is as it was. *)
Lemma copy_refused src dest d n :
  tree d !! src = Some Dir → tree d !! dest = Some n → n ≠ Dir →
  ∃ e, copy src dest d = (inl e, d).
Proof.
  intros Hsrc Hdest Hn.
  destruct (copy_cases src dest d)
    as [? | (sn & Hsn & _ & _ & _ & _ & Hdir & _)]; [done|].
  rewrite Hsrc in Hsn. injection Hsn as <-.
  destruct (Hdir eq_refl); congruence.
Qed.

(** A source is never copied onto itself, and a directory never into
    itself: the checks throw, and the disk is as it was. *)
Lemma copy_self_refused src dest d :
  src `prefix_of` dest →
  src = dest ∨ tree d !! src = Some Dir →
  ∃ e, copy src dest d = (inl e, d).
Proof.
  intros Hpre Hcase.
  destruct (copy_cases src dest d)
    as [? | (sn & Hsn & _ & _ & Hnot & Hsame & _ & _)]; [done|].
  destruct Hcase as [<-|Hdir].
  - destruct Hsame; [by eauto|done].
  - rewrite Hdir in Hsn. injection Hsn as <-. by destruct Hnot.
Qed.

(** A destination that cannot be reached is not copied to: [copy]
    throws, and the disk is as it was. *)
Lemma copy_unreachable src dest d e :
  faults d !! dest = Some e → ∃ e', copy src dest d = (inl e', d).
Proof.
  intros Hf.
  destruct (copy_cases src dest d)
    as [? | (sn & _ & _ & Hfd & _)]; [done|congruence].
Qed.

(** When [copy] throws on a destination that was not there, in a
    directory that is, it has either changed nothing or created the
    destination. *)
Lemma copy_fail_dichotomy src dest d err d' :
  absent (tree d) dest →
  tree d !! Path.dirname dest = Some Dir →
  copy src dest d = (inl err, d') →
  d' = d ∨ is_Some (tree d' !! dest).
Proof.
  intros Habs Hparent Hrun.
  destruct (copy_cases src dest d)
    as [[e He] | (sn & Hsrc & _ & _ & _ & _ & _ & He)];
    rewrite He in Hrun; [left; congruence|].
  unfold mbind, io_bind, bind in Hrun.
  pose proof (ensureParent_dir dest d Hparent) as Hep.
  destruct (ensureParent dest d) as [[e|[]] d1]; simpl in Hep; subst d1;
    [left; congruence|].
  unfold schedule in Hrun. rewrite forM_cons in Hrun.
  assert (tree d !! dest = None) as Hnone.
  { rewrite <- (app_nil_r dest). by apply absent_lookup. }
  destruct (keeps_put src dest [] sn d) as (Hf & Hd & Ho & Hat).
  rewrite app_nil_r in Ho, Hat.
  destruct (exec src dest (Put [] sn) d) as [[e|[]] d1] eqn:Hfirst;
    simpl in *.
  - injection Hrun as -> ->.
    destruct Hat as [Hat|[Hat|Hat]]; [left|right; by eauto|left].
    all: apply disk_eq; [|done..]; apply map_eq; intros q;
      destruct (decide (q = dest)) as [->|Hq]; [congruence|by apply Ho].
  - right. apply exec_ok in Hfirst. rewrite app_nil_r in Hfirst.
    match type of Hrun with forM ?l _ _ = _ =>
      pose proof (forM_touched src dest l d1) as (_ & _ & Ht);
      pose proof (schedule_tail src dest (tree d) sn) as Htail
    end.
    rewrite Hrun in Ht. simpl in Ht.
    destruct (Ht dest) as [->|(rel' & n' & Hin & Heq & _)]; [by eauto|].
    rewrite <- (app_nil_r dest) in Heq at 1.
    apply app_inv_head in Heq as <-. by apply Htail in Hin.
Qed.

End FsFacts.

(** ** The command *)

Module InitFacts.
Import Init.

(** Every run of [init] is one of the four. *)
Lemma init_run (pr : process) (d : Fs.disk) :
  run init pr d
  = if Fs.is_dir (Fs.tree d !! cwd pr) then
      if Fs.pathExists d (targetDir pr) then skipped pr d
      else match Fs.copy (templateDir pr) (targetDir pr) d with
           | (inr _, d') => installed pr d'
           | (inl e, d') => failed pr e d'
           end
    else crashed pr d.
Proof.
  unfold run, init, finish, skipped, installed, failed, crashed.
  unfold try_catch, fs_pathExists, fs_copy, process_cwd, dirname.
  unfold mbind, M_bind, bind, mret, M_ret, ret. simpl.
  destruct (Fs.is_dir (Fs.tree d !! cwd pr)); [|reflexivity]. simpl.
  fold (targetDir pr) (templateDir pr).
  destruct (Fs.pathExists d (targetDir pr)); [reflexivity|]. simpl.
  destruct (Fs.copy (templateDir pr) (targetDir pr) d) as [[e|[]] d'];
    reflexivity.
Qed.

Lemma init_completion (pr : process) (d : Fs.disk) :
  (init pr (State d [])).1
  = if Fs.is_dir (Fs.tree d !! cwd pr) then
      if Fs.pathExists d (targetDir pr) then Return ()
      else match (Fs.copy (templateDir pr) (targetDir pr) d).1 with
           | inr _ => Return ()
           | inl _ => Exit 1
           end
    else Throw (Fs.SysError Fs.ENOENT (cwd pr)).
Proof.
  unfold init, try_catch, fs_pathExists, fs_copy, process_cwd, dirname.
  unfold mbind, M_bind, bind, mret, M_ret, ret. simpl.
  destruct (Fs.is_dir (Fs.tree d !! cwd pr)); [|reflexivity]. simpl.
  fold (targetDir pr) (templateDir pr).
  destruct (Fs.pathExists d (targetDir pr)); [reflexivity|]. simpl.
  destruct (Fs.copy (templateDir pr) (targetDir pr) d) as [[e|[]] d'];
    reflexivity.
Qed.

Lemma is_dir_true (n : option Fs.node) : Fs.is_dir n = true ↔ n = Some Fs.Dir.
Proof. destruct n as [[]|]; simpl; split; congruence. Qed.

Lemma is_dir_false (n : option Fs.node) : Fs.is_dir n = false ↔ n ≠ Some Fs.Dir.
Proof. destruct n as [[]|]; simpl; split; congruence. Qed.

Lemma dirname_target (pr : process) : Path.dirname (targetDir pr) = cwd pr.
Proof.
  unfold targetDir. rewrite PathFacts.join_claude.
  apply PathFacts.dirname_snoc.
Qed.

Lemma pathExists_absent (d : Fs.disk) (p : path) :
  Fs.tree d !! p = None → Fs.pathExists d p = false.
Proof.
  intros Hl. unfold Fs.pathExists. simpl. rewrite Hl.
  by destruct (Fs.faults d !! p).
Qed.

Lemma pathExists_unreachable (d : Fs.disk) (p : path) e :
  Fs.faults d !! p = Some e → Fs.pathExists d p = false.
Proof. intros Hf. unfold Fs.pathExists. simpl. by rewrite Hf. Qed.

Lemma pathExists_dir (d : Fs.disk) (p : path) :
  Fs.faults d !! p = None → Fs.tree d !! p = Some Fs.Dir →
  Fs.pathExists d p = true.
Proof. intros Hf Hl. unfold Fs.pathExists. simpl. by rewrite Hf, Hl. Qed.

Lemma pathExists_file (d : Fs.disk) (p : path) data :
  Fs.faults d !! p = None → Fs.tree d !! p = Some (Fs.File data) →
  Fs.pathExists d p = true.
Proof. intros Hf Hl. unfold Fs.pathExists. simpl. by rewrite Hf, Hl. Qed.

Lemma pathExists_link (d : Fs.disk) (p q : path) :
  Fs.faults d !! p = None → Fs.tree d !! p = Some (Fs.Symlink q) →
  Fs.pathExists d p = Fs.access (Fs.MAXSYMLINKS - 1) d q.
Proof. intros Hf Hl. unfold Fs.pathExists. simpl Fs.access. by rewrite Hf, Hl. Qed.

Lemma absent_target (t : gmap path Fs.node) (p : path) :
  Fs.absent t p → t !! p = None.
Proof.
  intros H. rewrite <- (app_nil_r p). by apply FsFacts.absent_lookup.
Qed.

(** What a run can have done to the disk, whichever way it went. *)
Lemma init_changes (pr : process) (d : Fs.disk) :
  final (run init pr d) = d
  ∨ final (run init pr d) = (Fs.copy (templateDir pr) (targetDir pr) d).2
    ∧ Fs.tree d !! cwd pr = Some Fs.Dir
    ∧ Fs.pathExists d (targetDir pr) = false.
Proof.
  rewrite init_run.
  destruct (Fs.is_dir (Fs.tree d !! cwd pr)) eqn:Hcwd; [|by left].
  apply is_dir_true in Hcwd.
  destruct (Fs.pathExists d (targetDir pr)); [by left|right].
  by destruct (Fs.copy (templateDir pr) (targetDir pr) d) as [[e|[]] d'].
Qed.

(** A run changes the disk at most at and below [.claude], and what it
    puts there is the template's. *)
Lemma init_frame (pr : process) (d : Fs.disk) :
  Fs.faults (final (run init pr d)) = Fs.faults d
  ∧ Fs.denied (final (run init pr d)) = Fs.denied d
  ∧ ∀ p, Fs.tree (final (run init pr d)) !! p = Fs.tree d !! p
         ∨ ∃ rel n, p = targetDir pr ++ rel
                    ∧ Fs.tree d !! (templateDir pr ++ rel) = Some n
                    ∧ (Fs.tree (final (run init pr d)) !! p = Some n
                       ∨ Fs.tree (final (run init pr d)) !! p = None).
Proof.
  destruct (init_changes pr d) as [->|(-> & Hcwd & _)].
  { split; [done|]. split; [done|]. intros p. by left. }
  destruct (FsFacts.copy_changes (templateDir pr) (targetDir pr) d)
    as (Hf & Hd & Hch).
  split; [done|]. split; [done|]. intros p.
  destruct (Hch p) as [?|[(Hno & _)|?]]; [by left| |by right].
  by rewrite dirname_target in Hno.
Qed.

(** An entry that cannot be reached is not found by the check, and the
    copy that follows fails on it before it writes. *)
Lemma init_unreachable (pr : process) (d : Fs.disk) (e : Fs.errno) :
  Fs.tree d !! cwd pr = Some Fs.Dir →
  Fs.faults d !! targetDir pr = Some e →
  ∃ e', run init pr d = failed pr e' d.
Proof.
  intros Hcwd Hf. rewrite init_run, (proj2 (is_dir_true _) Hcwd).
  rewrite (pathExists_unreachable _ _ _ Hf).
  destruct (FsFacts.copy_unreachable (templateDir pr) (targetDir pr) d e Hf)
    as [e' ->].
  by exists e'.
Qed.

(** A template that is missing makes the copy throw before it writes. *)
Lemma copy_missing (src dest : path) (d : Fs.disk) :
  Fs.tree d !! src = None → Fs.faults d !! src = None →
  Fs.copy src dest d = (inl (Fs.SysError Fs.ENOENT src), d).
Proof.
  intros Hsrc Hf. unfold Fs.copy, Fs.lstat, Fs.check, Fs.gets.
  unfold mbind, Fs.io_bind, Fs.bind. simpl. by rewrite Hf, Hsrc.
Qed.

(** Membership in the output of a run is settled by comparing events. *)
Ltac events H :=
  cbv [crashed skipped installed failed output logs errors banner warning
       report troubleshooting fmap list_fmap app] in H;
  repeat (apply elem_of_cons in H as [H|H];
          [try (cbv [success copying chalk] in H; discriminate)|]);
  try (by apply elem_of_nil in H).

(** C1.  In a working directory with nothing at or below [.claude], a
    run of [init] that ends with exit code 0 leaves under [.claude]
    exactly the template: at every relative path, the entry that the
    template has there (the same kind, the same bytes), and no entry
    where the template has none. *)
Theorem init_installs_template (pr : process) (d : Fs.disk) :
  Fs.absent (Fs.tree d) (targetDir pr) →
  exit_code (run init pr d) = 0%Z →
  is_Some (Fs.tree d !! templateDir pr) ∧
  ∀ rel : path,
    Fs.tree (final (run init pr d)) !! (targetDir pr ++ rel)
    = Fs.tree d !! (templateDir pr ++ rel).
Proof.
  intros Habs Hexit. rewrite init_run in *.
  destruct (Fs.is_dir (Fs.tree d !! cwd pr)); [|done].
  rewrite (pathExists_absent _ _ (absent_target _ _ Habs)) in *.
  destruct (Fs.copy (templateDir pr) (targetDir pr) d) as [[e|[]] d'] eqn:Hc;
    [done|].
  apply FsFacts.copy_ok in Hc as (Hsrc & _ & Hc). split; [done|]. intros rel.
  simpl. rewrite Hc. destruct (Fs.tree d !! (templateDir pr ++ rel)); [done|].
  by apply FsFacts.absent_lookup.
Qed.

Lemma init_installs_template_witness :
  Fs.absent (Fs.tree Sample.fresh) (targetDir Sample.pr)
  ∧ exit_code (run init Sample.pr Sample.fresh) = 0%Z
  ∧ Fs.tree (final (run init Sample.pr Sample.fresh))
      !! (targetDir Sample.pr ++ ["skills"; "foo"; "SKILL.md"])
    = Fs.tree Sample.fresh
      !! (templateDir Sample.pr ++ ["skills"; "foo"; "SKILL.md"]).
Proof.
  split; [vm_compute; reflexivity|]. split; [vm_compute; reflexivity|].
  apply (init_installs_template Sample.pr Sample.fresh);
    vm_compute; reflexivity.
Defined.

(** C2, as stated, fails: a [.claude] directory that exists and cannot
    be reached (the working directory may not be searched) is not
    found by the check; the copy is attempted, no warning is printed
    and the run ends with code 1. *)
Lemma init_existing_not_skipped :
  ¬ (∀ (pr : process) (d : Fs.disk),
       Fs.tree d !! cwd pr = Some Fs.Dir →
       Fs.tree d !! targetDir pr = Some Fs.Dir →
       let o := run init pr d in
       exit_code o = 0%Z
       ∧ (∀ r, Copy (templateDir pr) (targetDir pr) r ∉ output o)
       ∧ Console stdout [Text [(yellow, "⚠️  .claude directory already exists. Skipping initialization.")]]
         ∈ output o).
Proof.
  intros H.
  destruct (H Sample.pr Sample.unsearchable) as [Hcode _];
    [vm_compute; reflexivity..|].
  vm_compute in Hcode. discriminate.
Qed.

(** C2, amended.  When the existence check finds [.claude], the only
    filesystem call of the run is that check, the disk is left as it
    was, the banner and the two lines of the warning are what is
    written to standard output, nothing is written to standard error
    and the exit code is 0.  When the template is a directory, a run
    that follows a run that ended with code 0 is such a run, on the
    disk the first one left.  And when [.claude] cannot be reached,
    whether it is there or not, the copy is attempted and fails: the
    run ends with code 1, and the disk is left as it was. *)
Theorem init_skips_existing :
  let skips (pr : process) (d : Fs.disk) :=
    let o := run init pr d in
    exit_code o = 0%Z ∧ final o = d
    ∧ output o
      = [ Console stdout [Text [(blue, "🚀 Initializing GQLify workflow for Claude Code...")]];
          Console stdout [Text [(gray, "   NestJS + GraphQL development toolkit
")]];
          PathExists (targetDir pr) true;
          Console stdout [Text [(yellow, "⚠️  .claude directory already exists. Skipping initialization.")]];
          Console stdout [Text [(gray, "   To reinstall, remove the existing .claude directory first.")]] ] in
  (∀ (pr : process) (d : Fs.disk),
     Fs.tree d !! cwd pr = Some Fs.Dir →
     Fs.pathExists d (targetDir pr) = true →
     skips pr d)
  ∧ (∀ (pr : process) (d : Fs.disk),
       Fs.tree d !! templateDir pr = Some Fs.Dir →
       exit_code (run init pr d) = 0%Z →
       skips pr (final (run init pr d)))
  ∧ (∀ (pr : process) (d : Fs.disk) (e : Fs.errno),
       Fs.tree d !! cwd pr = Some Fs.Dir →
       Fs.faults d !! targetDir pr = Some e →
       let o := run init pr d in
       exit_code o = 1%Z ∧ final o = d
       ∧ ∃ e', fs_calls (output o)
               = [PathExists (targetDir pr) false;
                  Copy (templateDir pr) (targetDir pr) (Some e')]).
Proof.
  intros skips. subst skips. cbv beta. split; [|split].
  - intros pr d Hcwd Hex. rewrite init_run.
    rewrite (proj2 (is_dir_true _) Hcwd), Hex. done.
  - intros pr d Htpl Hexit.
    assert (Fs.tree (final (run init pr d)) !! cwd pr = Some Fs.Dir
            ∧ Fs.pathExists (final (run init pr d)) (targetDir pr) = true)
      as [Hcwd Hex].
    { destruct (init_frame pr d) as (Hf & _ & Hfr).
      rewrite init_run in *.
      destruct (Fs.is_dir (Fs.tree d !! cwd pr)) eqn:Hcwd; [|done].
      apply is_dir_true in Hcwd.
      destruct (Fs.pathExists d (targetDir pr)) eqn:Hex; [done|].
      destruct (Fs.copy (templateDir pr) (targetDir pr) d)
        as [[e|[]] d'] eqn:Hc; [done|]. simpl in *.
      apply FsFacts.copy_ok in Hc as (_ & Hfd & Hc). specialize (Hc []).
      rewrite !app_nil_r, Htpl in Hc. split.
      - destruct (Hfr (cwd pr)) as [->|(rel & _ & Heq & _)]; [done|].
        unfold targetDir in Heq. rewrite PathFacts.join_claude in Heq.
        apply (f_equal length) in Heq. rewrite !length_app in Heq.
        simpl in Heq. lia.
      - apply pathExists_dir; [congruence|done]. }
    rewrite init_run, (proj2 (is_dir_true _) Hcwd), Hex. done.
  - intros pr d e Hcwd Hf.
    destruct (init_unreachable pr d e Hcwd Hf) as [e' ->].
    split; [done|]. split; [done|]. by exists e'.
Qed.

Lemma init_skips_existing_witness :
  Fs.tree Sample.initialised !! cwd Sample.pr = Some Fs.Dir
  ∧ Fs.pathExists Sample.initialised (targetDir Sample.pr) = true
  ∧ final (run init Sample.pr Sample.initialised) = Sample.initialised
  ∧ Fs.tree Sample.fresh !! templateDir Sample.pr = Some Fs.Dir
  ∧ exit_code (run init Sample.pr Sample.fresh) = 0%Z
  ∧ exit_code (run init Sample.pr (final (run init Sample.pr Sample.fresh)))
    = 0%Z
  ∧ Fs.faults Sample.unsearchable !! targetDir Sample.pr = Some Fs.EACCES
  ∧ exit_code (run init Sample.pr Sample.unsearchable) = 1%Z.
Proof.
  destruct init_skips_existing as (Hskip & Hagain & Hfault).
  split; [vm_compute; reflexivity|]. split; [vm_compute; reflexivity|]. split.
  { apply (Hskip Sample.pr Sample.initialised); vm_compute; reflexivity. }
  split; [vm_compute; reflexivity|]. split; [vm_compute; reflexivity|]. split.
  { apply (Hagain Sample.pr Sample.fresh); vm_compute; reflexivity. }
  split; [vm_compute; reflexivity|].
  apply (Hfault Sample.pr Sample.unsearchable Fs.EACCES);
    vm_compute; reflexivity.
Defined.

(** C3.  When the copy throws, for whatever reason, the run writes to
    standard error the error that was thrown, under the heading [Error
    initializing workflow], and the four troubleshooting lines, and
    ends with a code that is not 0; the copy was called once and
    nothing was called after it, so the disk is left as the failed copy
    left it.  A template that is missing is such a failure: its path is
    computed without touching the disk, and the copy, when nothing
    keeps it from the destination, throws [ENOENT] on the template
    before it writes anything. *)
Theorem init_reports_failure :
  (∀ (pr : process) (d : Fs.disk) (e : Fs.error),
     Copy (templateDir pr) (targetDir pr) (Some e) ∈ output (run init pr d) →
     let o := run init pr d in
     exit_code o ≠ 0%Z
     ∧ written stderr (output o)
       = [ [Text [(red, "
❌ Error initializing workflow:")]; Thrown e];
           [Text [(yellow, "
💡 Troubleshooting:")]];
           [Text [(gray, "   • Ensure you have write permissions in this directory")]];
           [Text [(gray, "   • Check that GQLify is properly installed")]];
           [Text [(gray, "   • Try running with elevated permissions if needed
")]] ]
     ∧ fs_calls (output o)
       = [PathExists (targetDir pr) false;
          Copy (templateDir pr) (targetDir pr) (Some e)]
     ∧ final o = (Fs.copy (templateDir pr) (targetDir pr) d).2)
  ∧ (∀ (pr : process) (d : Fs.disk),
       Fs.tree d !! cwd pr = Some Fs.Dir →
       Fs.pathExists d (targetDir pr) = false →
       Fs.faults d !! targetDir pr = None →
       Fs.tree d !! templateDir pr = None →
       Fs.faults d !! templateDir pr = None →
       Copy (templateDir pr) (targetDir pr)
         (Some (Fs.SysError Fs.ENOENT (templateDir pr)))
         ∈ output (run init pr d)
       ∧ final (run init pr d) = d).
Proof.
  split.
  - intros pr d e. rewrite init_run.
    destruct (Fs.is_dir (Fs.tree d !! cwd pr)); [|intros H; events H].
    destruct (Fs.pathExists d (targetDir pr)); [intros H; events H|].
    destruct (Fs.copy (templateDir pr) (targetDir pr) d) as [[e'|[]] d'];
      [|intros H; events H].
    intros H. assert (e' = e) as ->.
    { cbv [failed output logs errors banner troubleshooting fmap list_fmap app]
        in H.
      repeat (apply elem_of_cons in H as [H|H]; [try discriminate|]);
        [congruence|by apply elem_of_nil in H]. }
    done.
  - intros pr d Hcwd Hex _ Htpl Hf. rewrite init_run.
    rewrite (proj2 (is_dir_true _) Hcwd), Hex.
    rewrite (copy_missing _ (targetDir pr) _ Htpl Hf).
    split; [|done]. simpl. do 4 right. left.
Qed.

Lemma init_reports_failure_witness :
  Copy (templateDir Sample.pr) (targetDir Sample.pr)
    (Some (Fs.SysError Fs.ENOSPC (Sample.claude ++ ["skills"; "foo"; "SKILL.md"])))
    ∈ output (run init Sample.pr Sample.full)
  ∧ exit_code (run init Sample.pr Sample.full) ≠ 0%Z
  ∧ Fs.tree (final (run init Sample.pr Sample.full))
      !! (Sample.claude ++ ["skills"; "foo"])
    = Some Fs.Dir
  ∧ Fs.tree Sample.broken !! templateDir Sample.pr = None
  ∧ final (run init Sample.pr Sample.broken) = Sample.broken.
Proof.
  assert (Copy (templateDir Sample.pr) (targetDir Sample.pr)
            (Some (Fs.SysError Fs.ENOSPC
                     (Sample.claude ++ ["skills"; "foo"; "SKILL.md"])))
            ∈ output (run init Sample.pr Sample.full)) as Hin.
  { vm_compute. do 4 right. left. }
  split; [exact Hin|]. split.
  { apply (proj1 init_reports_failure Sample.pr Sample.full _ Hin). }
  split; [vm_compute; reflexivity|]. split; [vm_compute; reflexivity|].
  apply (proj2 init_reports_failure Sample.pr Sample.broken);
    vm_compute; reflexivity.
Defined.



(** C5.  The two paths are fixed by where the process runs and where
    the program is installed: [.claude] under the working directory,
    and [templates/.claude] three levels above the compiled module.
    The environment variables and the command line change nothing to a
    run; the filesystem calls of a run are on these two paths; outside
    [.claude] the disk is left as it was, and whatever a run has put
    under [.claude] is the template's entry at the same relative
    path. *)
Theorem init_paths_fixed (pr : process) (d : Fs.disk) :
  let o := run init pr d in
  targetDir pr = cwd pr ++ [".claude"]
  ∧ templateDir pr
    = removelast (removelast (removelast (__dirname pr)))
      ++ ["templates"; ".claude"]
  ∧ (∀ env' argv',
       run init (Process (cwd pr) (__dirname pr) env' argv') d = o)
  ∧ (∀ ev, ev ∈ fs_calls (output o) →
           (∃ r, ev = PathExists (targetDir pr) r)
           ∨ (∃ r, ev = Copy (templateDir pr) (targetDir pr) r))
  ∧ Fs.faults (final o) = Fs.faults d
  ∧ (∀ p, ¬ targetDir pr `prefix_of` p →
          Fs.tree (final o) !! p = Fs.tree d !! p)
  ∧ (∀ rel n,
       Fs.tree (final o) !! (targetDir pr ++ rel) = Some n →
       Fs.tree d !! (targetDir pr ++ rel) ≠ Some n →
       Fs.tree d !! (templateDir pr ++ rel) = Some n).
Proof.
  intros o. subst o.
  split; [reflexivity|]. split; [apply PathFacts.resolve_template|].
  split; [intros env' argv'; by rewrite !init_run|].
  split.
  { intros ev. rewrite init_run.
    destruct (Fs.is_dir (Fs.tree d !! cwd pr)).
    2:{ intros H. simpl in H. by apply elem_of_nil in H. }
    destruct (Fs.pathExists d (targetDir pr)).
    { intros H. simpl in H. apply list_elem_of_singleton in H. eauto. }
    destruct (Fs.copy (templateDir pr) (targetDir pr) d) as [[e|[]] d'];
      intros H; simpl in H;
      apply elem_of_cons in H as [->|H%list_elem_of_singleton]; eauto. }
  destruct (init_frame pr d) as (Hf & _ & Hfr).
  split; [done|]. split.
  - intros p Hp. destruct (Hfr p) as [?|(rel & _ & -> & _)]; [done|].
    destruct Hp. by apply prefix_app_r.
  - intros rel n Hn Hdiff.
    destruct (Hfr (targetDir pr ++ rel))
      as [Heq|(rel' & n' & Hrel & Hsrc & Hor)]; [congruence|].
    apply app_inv_head in Hrel as <-.
    destruct Hor; congruence.
Qed.

Lemma init_paths_fixed_witness :
  run init (Process (cwd Sample.pr) (__dirname Sample.pr)
              {[ "GQLIFY_TEMPLATES" := "/tmp/evil" ]}
              ["node"; "gqlify"; "init"; "--force"]) Sample.full
  = run init Sample.pr Sample.full.
Proof. apply (init_paths_fixed Sample.pr Sample.full). Defined.

(** C6, as stated, fails: when [.claude] is a symbolic link that does
    not resolve, the check finds nothing and the copy is attempted
    although an entry exists at the destination. *)
Lemma init_copies_onto_dangling_link :
  ¬ (∀ (pr : process) (d : Fs.disk),
       let o := run init pr d in
       (∀ p n, targetDir pr `prefix_of` p →
               Fs.tree d !! p = Some n → Fs.tree (final o) !! p = Some n)
       ∧ (∀ r, Copy (templateDir pr) (targetDir pr) r ∈ output o →
               Fs.tree d !! targetDir pr = None)).
Proof.
  intros H. destruct (H Sample.pr Sample.dangling) as [_ Hattempt].
  specialize (Hattempt
    (Some (Fs.DirOverNonDir (templateDir Sample.pr) (targetDir Sample.pr)))).
  assert (Fs.tree Sample.dangling !! targetDir Sample.pr = None) as Hnone.
  { apply Hattempt. vm_compute. do 4 right. left. }
  vm_compute in Hnone. discriminate.
Qed.

(** With a template path that is a regular file, the link is moreover
    replaced by the copy, and the run ends with code 0. *)
Lemma init_replaces_dangling_link :
  Fs.tree Sample.odd !! Sample.claude = Some (Fs.Symlink ["home"; "me"; "gone"])
  ∧ Fs.tree (final (run init Sample.pr Sample.odd)) !! Sample.claude
    = Some (Fs.File (Sample.text "?"))
  ∧ exit_code (run init Sample.pr Sample.odd) = 0%Z.
Proof. vm_compute. done. Qed.

(** C6, amended.  When the existence check finds [.claude], or nothing
    is at or below it, no entry of the disk, at the destination or
    elsewhere, is changed or removed by a run, and the copy is
    attempted only when [.claude] is not there.  The copy is also
    attempted, on an entry that exists, when the check fails on it:
    when [.claude] is a link that does not resolve, where a template
    that is a directory is refused by the copy, and when [.claude]
    cannot be reached, where the copy cannot reach it either; in both
    cases the disk is left as it was and the exit code is 1. *)
Theorem init_keeps_existing_entries :
  (∀ (pr : process) (d : Fs.disk),
     Fs.pathExists d (targetDir pr) = true
     ∨ Fs.absent (Fs.tree d) (targetDir pr) →
     let o := run init pr d in
     (∀ p n, Fs.tree d !! p = Some n → Fs.tree (final o) !! p = Some n)
     ∧ (∀ r, Copy (templateDir pr) (targetDir pr) r ∈ output o →
             Fs.tree d !! targetDir pr = None))
  ∧ (∀ (pr : process) (d : Fs.disk) (q : path),
       Fs.tree d !! cwd pr = Some Fs.Dir →
       Fs.tree d !! targetDir pr = Some (Fs.Symlink q) →
       Fs.pathExists d (targetDir pr) = false →
       Fs.tree d !! templateDir pr = Some Fs.Dir →
       let o := run init pr d in
       (∃ e, Copy (templateDir pr) (targetDir pr) (Some e) ∈ output o)
       ∧ final o = d ∧ exit_code o = 1%Z)
  ∧ (∀ (pr : process) (d : Fs.disk) (n : Fs.node) (e : Fs.errno),
       Fs.tree d !! cwd pr = Some Fs.Dir →
       Fs.tree d !! targetDir pr = Some n →
       Fs.faults d !! targetDir pr = Some e →
       let o := run init pr d in
       (∃ e', Copy (templateDir pr) (targetDir pr) (Some e') ∈ output o)
       ∧ final o = d ∧ exit_code o = 1%Z).
Proof.
  split; [|split].
  - intros pr d Hcase o. subst o. split.
    + intros p n Hp.
      destruct (init_changes pr d) as [->|(_ & _ & Hex)]; [done|].
      destruct Hcase as [?|Habs]; [congruence|].
      destruct (init_frame pr d) as (_ & _ & Hfr).
      destruct (Hfr p) as [Heq|(rel & _ & -> & _)]; [congruence|].
      by rewrite (FsFacts.absent_lookup _ _ rel Habs) in Hp.
    + intros r. rewrite init_run.
      destruct (Fs.is_dir (Fs.tree d !! cwd pr)); [|intros H; events H].
      destruct (Fs.pathExists d (targetDir pr)) eqn:Hex.
      { intros H. events H. }
      destruct Hcase as [?|Habs]; [done|]. intros _.
      by apply absent_target.
  - intros pr d q Hcwd Htgt Hex Htpl o. subst o.
    rewrite init_run, (proj2 (is_dir_true _) Hcwd), Hex.
    destruct (FsFacts.copy_refused _ _ _ _ Htpl Htgt) as [e ->]; [done|].
    split; [|done]. exists e. simpl. do 4 right. left.
  - intros pr d n e Hcwd Htgt Hf o. subst o.
    destruct (init_unreachable pr d e Hcwd Hf) as [e' ->].
    split; [|done]. exists e'. simpl. do 4 right. left.
Qed.

Lemma init_keeps_existing_entries_witness :
  Fs.tree (final (run init Sample.pr Sample.initialised))
    !! (Sample.claude ++ ["NOTES.md"])
  = Some (Fs.File (Sample.text "mine"))
  ∧ Fs.tree (final (run init Sample.pr Sample.fresh))
      !! ["home"; "me"; "proj"; "package.json"]
    = Some (Fs.File (Sample.text "{}"))
  ∧ final (run init Sample.pr Sample.dangling) = Sample.dangling
  ∧ final (run init Sample.pr Sample.unsearchable) = Sample.unsearchable.
Proof.
  destruct init_keeps_existing_entries as (Hkeep & Hlink & Hfault).
  split.
  { apply (Hkeep Sample.pr Sample.initialised); [left|];
      vm_compute; reflexivity. }
  split.
  { apply (Hkeep Sample.pr Sample.fresh); [right|]; vm_compute; reflexivity. }
  split.
  { apply (Hlink Sample.pr Sample.dangling ["home"; "me"; "gone"]);
      vm_compute; reflexivity. }
  apply (Hfault Sample.pr Sample.unsearchable Fs.Dir Fs.EACCES);
    vm_compute; reflexivity.
Defined.

(** *** The command line *)

Lemma parseOptions_flag (before after : list string) (flag : string) :
  maybeOption flag = true → flag ≠ "--" → "--" ∉ before →
  flag ∈ (parseOptions (before ++ flag :: after)).2.
Proof.
  intros Hflag Hne. induction before as [|w before IH]; intros Hno; simpl.
  - destruct (decide (flag = "--")); [done|]. rewrite Hflag. simpl. left.
  - destruct (decide (w = "--")) as [->|Hw].
    { destruct Hno. left. }
    assert ("--" ∉ before) as Hno'.
    { intros Hin. apply Hno. by right. }
    specialize (IH Hno').
    destruct (maybeOption w); simpl; [by right|done].
Qed.

Lemma parseOptions_operands (rest : list string) :
  (∀ w, w ∈ rest → maybeOption w = false) → parseOptions rest = (rest, []).
Proof.
  induction rest as [|w rest IH]; intros Hno; [done|]. simpl.
  destruct (decide (w = "--")) as [->|Hw].
  { specialize (Hno "--"). discriminate Hno. left. }
  rewrite (Hno w) by left. rewrite IH; [done|].
  intros w' Hw'. apply Hno. by right.
Qed.

Lemma parseOptions_none (rest : list string) :
  parseOptions rest = ([], []) → rest = [] ∨ rest = ["--"].
Proof.
  destruct rest as [|w rest]; [by left|]. simpl.
  destruct (decide (w = "--")) as [->|Hw]; [intros [= ->]; by right|].
  destruct (maybeOption w); discriminate.
Qed.

(** What [dispatch] gives for [gqlify], which has one command, without
    arguments and without options. *)
Lemma dispatch_gqlify (ex : bool) (node script : string) (rest : list string) :
  dispatch ex gqlify (node :: script :: rest)
  = match (parseOptions rest).1 with
    | [] => None
    | sub :: operands =>
        if bool_decide (sub = "init")
           && bool_decide ((parseOptions rest).2 = [])
           && (ex || bool_decide (operands = []))
        then head (commands gqlify) else None
    end.
Proof.
  unfold dispatch. change (drop 2 (node :: script :: rest)) with rest.
  destruct (parseOptions rest) as [ops opts].
  simpl. destruct ops as [|sub ops]; [done|]. simpl.
  destruct (decide (sub = "init")) as [Hsub|Hsub].
  - subst sub. simpl. destruct opts as [|o opts]; simpl.
    + destruct ops; simpl; by destruct ex.
    + done.
  - by rewrite !bool_decide_eq_false_2 by congruence.
Qed.

(** C7, as stated, fails: the existence check is not the first thing
    every run does.  When the working directory is gone,
    [process.cwd()], which comes before it and outside the [try],
    throws: the run makes no filesystem call and prints nothing of its
    own. *)
Lemma init_run_without_check :
  ¬ (∀ (pr : process) (d : Fs.disk),
       ∃ r, head (fs_calls (output (run init pr d)))
            = Some (PathExists (targetDir pr) r)).
Proof.
  intros H. destruct (H Sample.pr Sample.gone) as [r Hr].
  vm_compute in Hr. discriminate.
Qed.

(** C7, amended.  The program registers one command, [init], which
    declares no argument and no option and whose action is [init].
    The command line [gqlify init] calls it; a command line with an
    option after [init] never does, whatever the option; with excess
    arguments refused, a command line with any word after [init] (other
    than a bare [--]) never does, and with excess arguments allowed the
    words are ignored; and a command line whose first word is not
    [init] never does.  A run of [init] is a straight line: it stops
    at once, by an exception that nothing catches, when the working
    directory is gone, and is otherwise the check then the warning; or
    the check, the copy, then the report; or the check, the copy, then
    the error report. *)
Theorem cli_single_linear_command :
  (∃ c, commands gqlify = [c]
        ∧ name c = "init" ∧ arguments c = [] ∧ options c = []
        ∧ action c = init
        ∧ (∀ ex node script, dispatch ex gqlify [node; script; "init"] = Some c)
        ∧ (∀ ex node script before flag after,
             maybeOption flag = true → flag ≠ "--" → "--" ∉ before →
             dispatch ex gqlify
               (node :: script :: "init" :: before ++ flag :: after) = None)
        ∧ (∀ node script rest,
             rest ≠ [] → rest ≠ ["--"] →
             dispatch false gqlify (node :: script :: "init" :: rest) = None)
        ∧ (∀ node script rest,
             (∀ w, w ∈ rest → maybeOption w = false) →
             dispatch true gqlify (node :: script :: "init" :: rest) = Some c)
        ∧ (∀ ex node script sub rest,
             sub ≠ "init" → sub ≠ "--" →
             dispatch ex gqlify (node :: script :: sub :: rest) = None))
  ∧ (∀ (pr : process) (d : Fs.disk),
       let o := run init pr d in
       (o = crashed pr d ∧ fs_calls (output o) = [])
       ∨ (o = skipped pr d
          ∧ fs_calls (output o) = [PathExists (targetDir pr) true])
       ∨ (∃ d', o = installed pr d'
                ∧ fs_calls (output o)
                  = [PathExists (targetDir pr) false;
                     Copy (templateDir pr) (targetDir pr) None])
       ∨ (∃ e d', o = failed pr e d'
                  ∧ fs_calls (output o)
                    = [PathExists (targetDir pr) false;
                       Copy (templateDir pr) (targetDir pr) (Some e)])).
Proof.
  split.
  - eexists. split; [reflexivity|]. do 4 (split; [reflexivity|]).
    split; [by intros []|]. split; [|split; [|split]].
    + intros ex node script before flag after Hflag Hne Hno.
      rewrite dispatch_gqlify.
      pose proof (parseOptions_flag ("init" :: before) after flag Hflag Hne)
        as Hin.
      change (("init" :: before) ++ flag :: after)
        with ("init" :: before ++ flag :: after) in Hin.
      destruct (parseOptions ("init" :: before ++ flag :: after))
        as [[|sub ops] opts]; [done|]. simpl in *.
      destruct opts.
      * exfalso. eapply not_elem_of_nil, Hin.
        intros [? | ?]%elem_of_cons; [done|by apply Hno].
      * by rewrite andb_false_r.
    + intros node script rest Hne Hne'. rewrite dispatch_gqlify.
      change (parseOptions ("init" :: rest))
        with (let r := parseOptions rest in ("init" :: r.1, r.2)).
      pose proof (parseOptions_none rest) as Hnone.
      destruct (parseOptions rest) as [[|op ops] [|opt opts]]; simpl; try done.
      destruct Hnone; done.
    + intros node script rest Hno. rewrite dispatch_gqlify.
      change (parseOptions ("init" :: rest))
        with (let r := parseOptions rest in ("init" :: r.1, r.2)).
      by rewrite (parseOptions_operands rest Hno).
    + intros ex node script sub rest Hsub Hne. rewrite dispatch_gqlify.
      simpl. rewrite decide_False by done.
      destruct (maybeOption sub); simpl.
      * destruct (parseOptions rest) as [[|op ops] opts]; simpl; [done|].
        by rewrite andb_false_r.
      * by rewrite bool_decide_eq_false_2.
  - intros pr d o. subst o. rewrite init_run.
    destruct (Fs.is_dir (Fs.tree d !! cwd pr)); [right|by left].
    destruct (Fs.pathExists d (targetDir pr)); [by left|right].
    destruct (Fs.copy (templateDir pr) (targetDir pr) d) as [[e|[]] d'];
      [right|left]; eauto.
Qed.

Lemma cli_single_linear_command_witness :
  dispatch true gqlify ["node"; "gqlify"; "init"; "--force"] = None
  ∧ dispatch false gqlify ["node"; "gqlify"; "init"; "extra"] = None
  ∧ dispatch false gqlify ["node"; "gqlify"; "help"] = None
  ∧ dispatch false gqlify ["node"; "gqlify"; "init"]
    = Some (Command "init"
              "Initialize the .claude workflow in the current directory"
              [] [] init).
Proof.
  destruct cli_single_linear_command
    as [(c & Hc & _ & _ & _ & _ & Hinit & Hflag & Hexcess & _ & Hother) _].
  split.
  { apply (Hflag true "node" "gqlify" [] "--force" []); [done..|].
    apply not_elem_of_nil. }
  split; [by apply Hexcess|]. split; [by apply Hother|].
  rewrite Hinit. by injection Hc as <-.
Defined.

(** C8, as stated, fails: a symbolic link named [.claude] whose target
    does not exist is an entry at the destination, and the run is not
    the skipped one; it attempts the copy and ends with code 1. *)
Lemma init_dangling_link_not_skipped :
  ¬ (∀ (pr : process) (d : Fs.disk) (n : Fs.node),
       Fs.tree d !! targetDir pr = Some n →
       run init pr d = skipped pr d).
Proof.
  intros H.
  specialize (H Sample.pr Sample.dangling (Fs.Symlink ["home"; "me"; "gone"])).
  assert (exit_code (run init Sample.pr Sample.dangling)
          = exit_code (skipped Sample.pr Sample.dangling)) as Heq.
  { f_equal. apply H. vm_compute; reflexivity. }
  vm_compute in Heq. discriminate.
Qed.

(** The same happens with a [.claude] directory that cannot be
    reached. *)
Lemma init_unreachable_not_skipped :
  Fs.tree Sample.unsearchable !! targetDir Sample.pr = Some Fs.Dir
  ∧ exit_code (run init Sample.pr Sample.unsearchable) = 1%Z.
Proof. vm_compute. done. Qed.

(** C8, amended.  The guard fires on every entry that the existence
    check reaches, whatever its kind: a directory, a regular file, a
    symbolic link whose target is reached.  The run then writes the
    warning, makes no other filesystem call than the check, leaves the
    disk as it was and ends with code 0.  On a symbolic link whose
    target is not reached, and on an entry that cannot itself be
    reached, the check finds nothing and the copy is attempted. *)
Theorem init_guard_on_any_resolving_entry :
  let skips (pr : process) (d : Fs.disk) :=
    let o := run init pr d in
    exit_code o = 0%Z ∧ final o = d
    ∧ fs_calls (output o) = [PathExists (targetDir pr) true]
    ∧ Console stdout [Text [(yellow, "⚠️  .claude directory already exists. Skipping initialization.")]] ∈ output o in
  let copies (pr : process) (d : Fs.disk) :=
    ∃ r, fs_calls (output (run init pr d))
         = [PathExists (targetDir pr) false;
            Copy (templateDir pr) (targetDir pr) r] in
  (∀ (pr : process) (d : Fs.disk),
     Fs.tree d !! cwd pr = Some Fs.Dir →
     Fs.faults d !! targetDir pr = None →
     Fs.tree d !! targetDir pr = Some Fs.Dir →
     skips pr d)
  ∧ (∀ (pr : process) (d : Fs.disk) (data : Fs.bytes),
       Fs.tree d !! cwd pr = Some Fs.Dir →
       Fs.faults d !! targetDir pr = None →
       Fs.tree d !! targetDir pr = Some (Fs.File data) →
       skips pr d)
  ∧ (∀ (pr : process) (d : Fs.disk) (q : path),
       Fs.tree d !! cwd pr = Some Fs.Dir →
       Fs.faults d !! targetDir pr = None →
       Fs.tree d !! targetDir pr = Some (Fs.Symlink q) →
       Fs.access (Fs.MAXSYMLINKS - 1) d q = true →
       skips pr d)
  ∧ (∀ (pr : process) (d : Fs.disk) (q : path),
       Fs.tree d !! cwd pr = Some Fs.Dir →
       Fs.faults d !! targetDir pr = None →
       Fs.tree d !! targetDir pr = Some (Fs.Symlink q) →
       Fs.access (Fs.MAXSYMLINKS - 1) d q = false →
       copies pr d)
  ∧ (∀ (pr : process) (d : Fs.disk) (e : Fs.errno),
       Fs.tree d !! cwd pr = Some Fs.Dir →
       Fs.faults d !! targetDir pr = Some e →
       copies pr d).
Proof.
  intros skips copies. subst skips copies. cbv beta.
  assert (∀ pr d, Fs.tree d !! cwd pr = Some Fs.Dir →
                  Fs.pathExists d (targetDir pr) = true →
                  exit_code (run init pr d) = 0%Z ∧ final (run init pr d) = d
                  ∧ fs_calls (output (run init pr d))
                    = [PathExists (targetDir pr) true]
                  ∧ Console stdout [Text [(yellow, "⚠️  .claude directory already exists. Skipping initialization.")]]
                    ∈ output (run init pr d)) as Hskip.
  { intros pr d Hcwd Hex. rewrite init_run.
    rewrite (proj2 (is_dir_true _) Hcwd), Hex.
    do 3 (split; [done|]). simpl. do 3 right. left. }
  assert (∀ pr d, Fs.tree d !! cwd pr = Some Fs.Dir →
                  Fs.pathExists d (targetDir pr) = false →
                  ∃ r, fs_calls (output (run init pr d))
                       = [PathExists (targetDir pr) false;
                          Copy (templateDir pr) (targetDir pr) r]) as Hcopy.
  { intros pr d Hcwd Hex. rewrite init_run.
    rewrite (proj2 (is_dir_true _) Hcwd), Hex.
    destruct (Fs.copy (templateDir pr) (targetDir pr) d) as [[e|[]] d'];
      eauto. }
  split; [|split; [|split; [|split]]].
  - intros pr d Hcwd Hf H. apply Hskip; [done|]. by apply pathExists_dir.
  - intros pr d data Hcwd Hf H. apply Hskip; [done|].
    by eapply pathExists_file.
  - intros pr d q Hcwd Hf H Hq. apply Hskip; [done|].
    by rewrite (pathExists_link _ _ _ Hf H).
  - intros pr d q Hcwd Hf H Hq. apply Hcopy; [done|].
    by rewrite (pathExists_link _ _ _ Hf H).
  - intros pr d e Hcwd Hf. apply Hcopy; [done|].
    by eapply pathExists_unreachable.
Qed.

Lemma init_guard_on_any_resolving_entry_witness :
  exit_code (run init Sample.pr Sample.initialised) = 0%Z
  ∧ exit_code (run init Sample.pr Sample.regular) = 0%Z
  ∧ exit_code (run init Sample.pr Sample.linked) = 0%Z
  ∧ (∃ r, fs_calls (output (run init Sample.pr Sample.dangling))
          = [PathExists (targetDir Sample.pr) false;
             Copy (templateDir Sample.pr) (targetDir Sample.pr) r])
  ∧ (∃ r, fs_calls (output (run init Sample.pr Sample.unsearchable))
          = [PathExists (targetDir Sample.pr) false;
             Copy (templateDir Sample.pr) (targetDir Sample.pr) r]).
Proof.
  destruct init_guard_on_any_resolving_entry
    as (Hdir & Hfile & Hlink & Hno & Hfault).
  split; [apply Hdir; vm_compute; reflexivity|].
  split; [eapply Hfile; vm_compute; reflexivity|].
  split; [eapply Hlink; vm_compute; reflexivity|].
  split; [eapply Hno; vm_compute; reflexivity|].
  eapply Hfault; vm_compute; reflexivity.
Defined.

(** C9, as stated, fails: with a [.claude] directory that exists and
    cannot be reached, the template path is given to the copy, and a
    template that is missing makes the run end with code 1. *)
Lemma init_reads_template_behind_existing :
  ¬ (∀ (pr : process) (d : Fs.disk),
       Fs.tree d !! cwd pr = Some Fs.Dir →
       Fs.tree d !! targetDir pr = Some Fs.Dir →
       let o := run init pr d in
       exit_code o = 0%Z
       ∧ ∀ r, Copy (templateDir pr) (targetDir pr) r ∉ output o).
Proof.
  intros H.
  destruct (H Sample.pr Sample.unsearchable_broken) as [Hcode _];
    [vm_compute; reflexivity..|].
  vm_compute in Hcode. discriminate.
Qed.

(** C9, amended.  When the existence check finds [.claude], the run
    ends with code 0 after a single filesystem call, the check on
    [.claude]: the copy, which is the only call given the template
    path, is not made.  So nothing about the template matters: two
    disks on which the check finds [.claude] give the same exit code
    and the same output, whatever they hold, or fail to hold, at the
    template path.  When the check does not find [.claude], be it
    there or not, the template path is given to the copy, and a
    template that is missing makes the copy throw and the run end
    with code 1. *)
Theorem init_skip_ignores_template :
  (∀ (pr : process) (d : Fs.disk),
     Fs.tree d !! cwd pr = Some Fs.Dir →
     Fs.pathExists d (targetDir pr) = true →
     let o := run init pr d in
     exit_code o = 0%Z
     ∧ fs_calls (output o) = [PathExists (targetDir pr) true]
     ∧ (∀ r, Copy (templateDir pr) (targetDir pr) r ∉ output o)
     ∧ ∀ d2 : Fs.disk,
         Fs.tree d2 !! cwd pr = Some Fs.Dir →
         Fs.pathExists d2 (targetDir pr) = true →
         exit_code (run init pr d2) = exit_code o
         ∧ output (run init pr d2) = output o)
  ∧ (∀ (pr : process) (d : Fs.disk),
       Fs.tree d !! cwd pr = Some Fs.Dir →
       Fs.pathExists d (targetDir pr) = false →
       Fs.tree d !! templateDir pr = None →
       Fs.faults d !! templateDir pr = None →
       let o := run init pr d in
       exit_code o = 1%Z ∧ final o = d
       ∧ ∃ e, fs_calls (output o)
              = [PathExists (targetDir pr) false;
                 Copy (templateDir pr) (targetDir pr) (Some e)]).
Proof.
  split.
  - intros pr d Hcwd Hex o. subst o.
    rewrite init_run, (proj2 (is_dir_true _) Hcwd), Hex.
    split; [done|]. split; [done|]. split.
    + intros r H. events H.
    + intros d2 Hcwd2 Hex2.
      by rewrite init_run, (proj2 (is_dir_true _) Hcwd2), Hex2.
  - intros pr d Hcwd Hex Htpl Hf.
    rewrite init_run, (proj2 (is_dir_true _) Hcwd), Hex.
    rewrite (copy_missing _ (targetDir pr) _ Htpl Hf).
    split; [done|]. split; [done|]. by eexists.
Qed.

Lemma init_skip_ignores_template_witness :
  Fs.tree Sample.initialised_broken !! cwd Sample.pr = Some Fs.Dir
  ∧ Fs.pathExists Sample.initialised_broken (targetDir Sample.pr) = true
  ∧ Fs.tree Sample.initialised_broken !! templateDir Sample.pr = None
  ∧ exit_code (run init Sample.pr Sample.initialised_broken) = 0%Z
  ∧ Fs.tree Sample.unsearchable_broken !! targetDir Sample.pr = Some Fs.Dir
  ∧ exit_code (run init Sample.pr Sample.unsearchable_broken) = 1%Z.
Proof.
  destruct init_skip_ignores_template as [Hskip Hcopy].
  split; [vm_compute; reflexivity|]. split; [vm_compute; reflexivity|].
  split; [vm_compute; reflexivity|]. split.
  { destruct (Hskip Sample.pr Sample.initialised_broken)
      as [Hcode _]; [vm_compute; reflexivity..|exact Hcode]. }
  split; [vm_compute; reflexivity|].
  apply (Hcopy Sample.pr Sample.unsearchable_broken); vm_compute; reflexivity.
Defined.

(** C10, as stated, fails: when the working directory is gone,
    [process.cwd()] throws before the [try]; nothing catches it, and
    the process ends with code 1 although no copy was attempted and
    [process.exit] was not called. *)
Lemma init_uncaught_exit :
  ¬ (∀ (pr : process) (d : Fs.disk),
       exit_code (run init pr d) ≠ 0%Z →
       (init pr (State d [])).1 = Exit 1
       ∧ ∃ e, Copy (templateDir pr) (targetDir pr) (Some e)
              ∈ output (run init pr d)).
Proof.
  intros H. destruct (H Sample.pr Sample.gone) as [Hexit _].
  { vm_compute. discriminate. }
  vm_compute in Hexit. discriminate.
Qed.

(** C10, amended.  A run ends in one of three ways.  It ends by
    [process.exit(1)], with code 1, exactly when the copy was attempted
    and threw.  It ends by an exception that nothing catches, with
    code 1 and Node's report of it as its whole output, exactly when
    the working directory is gone.  In every other run [init] returns
    and the exit code is 0. *)
Theorem init_exit_codes (pr : process) (d : Fs.disk) :
  let o := run init pr d in
  let failing :=
    Fs.pathExists d (targetDir pr) = false
    ∧ ∃ e, (Fs.copy (templateDir pr) (targetDir pr) d).1 = inl e in
  ((init pr (State d [])).1 = Exit 1 ∧ exit_code o = 1%Z
   ∧ Fs.tree d !! cwd pr = Some Fs.Dir ∧ failing)
  ∨ ((init pr (State d [])).1 = Throw (Fs.SysError Fs.ENOENT (cwd pr))
     ∧ exit_code o = 1%Z
     ∧ Fs.tree d !! cwd pr ≠ Some Fs.Dir
     ∧ output o = [Uncaught (Fs.SysError Fs.ENOENT (cwd pr))]
     ∧ final o = d)
  ∨ ((init pr (State d [])).1 = Return () ∧ exit_code o = 0%Z
     ∧ Fs.tree d !! cwd pr = Some Fs.Dir ∧ ¬ failing).
Proof.
  intros o failing. subst o failing. rewrite init_completion, init_run.
  destruct (Fs.is_dir (Fs.tree d !! cwd pr)) eqn:Hcwd.
  2:{ apply is_dir_false in Hcwd. right; left. done. }
  apply is_dir_true in Hcwd.
  destruct (Fs.pathExists d (targetDir pr)).
  { right; right. repeat split; try done. by intros [? _]. }
  destruct (Fs.copy (templateDir pr) (targetDir pr) d) as [[e|[]] d']; simpl.
  - left. eauto 10.
  - right; right. repeat split; try done. by intros [_ [? ?]].
Qed.

End InitFacts.

(** * Further properties of the command *)

Module PathMore.

Lemma removelast3 (root : path) (a b c : string) :
  removelast (removelast (removelast (root ++ [a; b; c]))) = root.
Proof.
  change (root ++ [a; b; c]) with (root ++ [a] ++ [b] ++ [c]).
  rewrite !app_assoc. by rewrite !removelast_last.
Qed.

Lemma removelast3_short (p : path) :
  (length p ≤ 3)%nat → removelast (removelast (removelast p)) = [].
Proof.
  destruct p as [|a [|b [|c [|e p]]]]; simpl; intros Hlen; try done. lia.
Qed.

End PathMore.

Module InitMore.
Import Init.

(** X1.  The template is looked for in [templates/.claude] of the
    package root, whatever the root is, when the compiled module sits
    three directories below it (as [dist/src/commands] does); when the
    module sits less than three directories deep, the [..] steps stop at
    the root of the filesystem and the template is [/templates/.claude]. *)
Theorem template_at_package_root :
  (∀ (root : path) (a b c : string) (wd : path) env argv,
     templateDir (Process wd (root ++ [a; b; c]) env argv)
     = root ++ ["templates"; ".claude"])
  ∧ (∀ pr : process,
       (length (__dirname pr) ≤ 3)%nat →
       templateDir pr = ["templates"; ".claude"]).
Proof.
  split.
  - intros root a b c wd env argv. unfold templateDir. simpl.
    by rewrite PathFacts.resolve_template, PathMore.removelast3.
  - intros pr Hlen. unfold templateDir.
    by rewrite PathFacts.resolve_template, PathMore.removelast3_short.
Qed.

Lemma template_at_package_root_witness :
  (length (__dirname (Process ["w"] ["usr"; "lib"] ∅ [])) ≤ 3)%nat
  ∧ templateDir (Process ["w"] ["usr"; "lib"] ∅ []) = ["templates"; ".claude"].
Proof.
  split; [simpl; lia|].
  apply (proj2 template_at_package_root (Process ["w"] ["usr"; "lib"] ∅ [])).
  simpl; lia.
Defined.

(** X2.  Standard error is written by failing runs only.  A run that
    ends with code 0 writes nothing to it.  A run that ends with code 1
    is one of two: either the copy threw, and the run has written to
    standard error the heading with the error that was thrown and the
    four troubleshooting lines, and to standard output the banner and
    the line that announces the copy, nothing else; or the working
    directory is gone, and the run has written nothing but Node's
    report of the exception, on standard error.  Every run in an
    existing working directory starts its standard output with the
    banner. *)
Theorem init_streams (pr : process) (d : Fs.disk) :
  let o := run init pr d in
  (exit_code o = 0%Z → written stderr (output o) = [])
  ∧ (exit_code o = 1%Z →
     (∃ e, written stderr (output o)
           = [ [Text [(red, "
❌ Error initializing workflow:")]; Thrown e];
               [Text [(yellow, "
💡 Troubleshooting:")]];
               [Text [(gray, "   • Ensure you have write permissions in this directory")]];
               [Text [(gray, "   • Check that GQLify is properly installed")]];
               [Text [(gray, "   • Try running with elevated permissions if needed
")]] ]
           ∧ written stdout (output o)
             = [ [Text [(blue, "🚀 Initializing GQLify workflow for Claude Code...")]];
                 [Text [(gray, "   NestJS + GraphQL development toolkit
")]];
                 [Text [(gray, "📦 Copying templates from /" +:+ String.concat "/" (templateDir pr) +:+ "...")]] ])
     ∨ (Fs.tree d !! cwd pr ≠ Some Fs.Dir
        ∧ written stderr (output o)
          = [ [Thrown (Fs.SysError Fs.ENOENT (cwd pr))] ]
        ∧ written stdout (output o) = []))
  ∧ (Fs.tree d !! cwd pr = Some Fs.Dir →
     [ [Text [(blue, "🚀 Initializing GQLify workflow for Claude Code...")]];
       [Text [(gray, "   NestJS + GraphQL development toolkit
")]] ]
     `prefix_of` written stdout (output o)).
Proof.
  intros o. subst o. rewrite InitFacts.init_run.
  destruct (Fs.is_dir (Fs.tree d !! cwd pr)) eqn:Hcwd.
  2:{ apply InitFacts.is_dir_false in Hcwd.
      split; [done|]. split; [by right|done]. }
  destruct (Fs.pathExists d (targetDir pr)).
  { split; [done|]. split; [done|]. by eexists (_ :: _ :: []). }
  destruct (Fs.copy (templateDir pr) (targetDir pr) d) as [[e|[]] d'].
  - split; [done|]. split; [left; by exists e|]. by eexists (_ :: []).
  - split; [done|]. split; [done|]. by eexists (_ :: _).
Qed.

Lemma init_streams_witness :
  exit_code (run init Sample.pr Sample.fresh) = 0%Z
  ∧ written stderr (output (run init Sample.pr Sample.fresh)) = []
  ∧ exit_code (run init Sample.pr Sample.readonly) = 1%Z
  ∧ length (written stderr (output (run init Sample.pr Sample.readonly))) = 5%nat
  ∧ exit_code (run init Sample.pr Sample.gone) = 1%Z
  ∧ length (written stderr (output (run init Sample.pr Sample.gone))) = 1%nat.
Proof.
  split; [vm_compute; reflexivity|]. split.
  { apply (proj1 (init_streams Sample.pr Sample.fresh)).
    vm_compute; reflexivity. }
  split; [vm_compute; reflexivity|]. split.
  { destruct (proj1 (proj2 (init_streams Sample.pr Sample.readonly)))
      as [(e & -> & _)|(Hcwd & _)]; [vm_compute; reflexivity|reflexivity|].
    exfalso. apply Hcwd. vm_compute; reflexivity. }
  split; [vm_compute; reflexivity|].
  destruct (proj1 (proj2 (init_streams Sample.pr Sample.gone)))
    as [(e & _ & Hout)|(_ & -> & _)]; [vm_compute; reflexivity| |reflexivity].
  exfalso. vm_compute in Hout. discriminate.
Defined.

(** The copy branch, when it fails. *)
Lemma init_failed (pr : process) (d : Fs.disk) :
  exit_code (run init pr d) = 1%Z →
  final (run init pr d) = d ∧ Fs.tree d !! cwd pr ≠ Some Fs.Dir
  ∨ Fs.tree d !! cwd pr = Some Fs.Dir
    ∧ Fs.pathExists d (targetDir pr) = false
    ∧ ∃ e, Fs.copy (templateDir pr) (targetDir pr) d
           = (inl e, final (run init pr d)).
Proof.
  rewrite InitFacts.init_run.
  destruct (Fs.is_dir (Fs.tree d !! cwd pr)) eqn:Hcwd.
  2:{ apply InitFacts.is_dir_false in Hcwd. by left. }
  apply InitFacts.is_dir_true in Hcwd.
  destruct (Fs.pathExists d (targetDir pr)); [done|].
  destruct (Fs.copy (templateDir pr) (targetDir pr) d) as [[e|[]] d'];
    [right; eauto|done].
Qed.

Lemma rerun_skipped (pr : process) (d : Fs.disk) (k : nat) :
  Fs.tree d !! cwd pr = Some Fs.Dir →
  Fs.pathExists d (targetDir pr) = true → rerun k pr d = d.
Proof.
  intros Hcwd Hex. induction k as [|k IH]; [done|].
  change (rerun (S k) pr d) with (final (run init pr (rerun k pr d))).
  by rewrite IH, InitFacts.init_run, (proj2 (InitFacts.is_dir_true _) Hcwd), Hex.
Qed.

Lemma cwd_outside_target (pr : process) (rel : path) :
  cwd pr ≠ targetDir pr ++ rel.
Proof.
  unfold targetDir. rewrite PathFacts.join_claude. intros Heq.
  apply (f_equal length) in Heq. rewrite !length_app in Heq. simpl in Heq. lia.
Qed.

(** X3.  A failed run is not repaired by running again.  When a run
    that found no [.claude] ends with code 1 and leaves a [.claude]
    directory behind, every later run, however many, finds [.claude],
    prints the warning, ends with code 0 and leaves the disk as the
    failed run left it. *)
Theorem init_partial_install_sticks (pr : process) (d : Fs.disk) :
  Fs.absent (Fs.tree d) (targetDir pr) →
  exit_code (run init pr d) = 1%Z →
  let d1 := final (run init pr d) in
  Fs.tree d1 !! targetDir pr = Some Fs.Dir →
  ∀ k, rerun k pr d1 = d1
       ∧ exit_code (run init pr (rerun k pr d1)) = 0%Z
       ∧ fs_calls (output (run init pr (rerun k pr d1)))
         = [PathExists (targetDir pr) true]
       ∧ Console stdout [Text [(yellow, "⚠️  .claude directory already exists. Skipping initialization.")]]
         ∈ output (run init pr (rerun k pr d1)).
Proof.
  intros Habs Hexit d1 Hdir. subst d1.
  apply InitFacts.absent_target in Habs.
  apply init_failed in Hexit as [[Hd _]|(Hcwd & Hex & e & Hcopy)].
  { rewrite Hd in Hdir. congruence. }
  destruct (InitFacts.init_frame pr d) as (Hfaults & _ & Hframe).
  assert (Fs.tree (final (run init pr d)) !! cwd pr = Some Fs.Dir) as Hcwd1.
  { destruct (Hframe (cwd pr)) as [->|(rel & n & Heq & _)]; [done|].
    by apply cwd_outside_target in Heq. }
  assert (Fs.pathExists (final (run init pr d)) (targetDir pr) = true) as Hex1.
  { apply InitFacts.pathExists_dir; [|done]. rewrite Hfaults.
    destruct (Fs.faults d !! targetDir pr) as [e'|] eqn:Hf; [|done].
    destruct (FsFacts.copy_unreachable (templateDir pr) _ _ _ Hf) as [e'' He].
    assert (final (run init pr d) = d) as Hd by congruence.
    rewrite Hd in Hdir. congruence. }
  intros k. rewrite (rerun_skipped pr _ k Hcwd1 Hex1). split; [done|].
  rewrite InitFacts.init_run, (proj2 (InitFacts.is_dir_true _) Hcwd1), Hex1.
  do 2 (split; [done|]). simpl. do 3 right. left.
Qed.

Lemma init_partial_install_sticks_witness :
  Fs.absent (Fs.tree Sample.full) (targetDir Sample.pr)
  ∧ exit_code (run init Sample.pr Sample.full) = 1%Z
  ∧ Fs.tree (final (run init Sample.pr Sample.full)) !! targetDir Sample.pr
    = Some Fs.Dir
  ∧ rerun 3 Sample.pr (final (run init Sample.pr Sample.full))
    = final (run init Sample.pr Sample.full)
  ∧ rerun 2 Sample.pr (final (run init Sample.pr Sample.bare_unreadable))
    = final (run init Sample.pr Sample.bare_unreadable).
Proof.
  split; [vm_compute; reflexivity|]. split; [vm_compute; reflexivity|].
  split; [vm_compute; reflexivity|]. split.
  - apply (proj1 (init_partial_install_sticks Sample.pr Sample.full
                    ltac:(vm_compute; reflexivity) ltac:(vm_compute; reflexivity)
                    ltac:(vm_compute; reflexivity) 3)).
  - apply (proj1 (init_partial_install_sticks Sample.pr Sample.bare_unreadable
                    ltac:(vm_compute; reflexivity) ltac:(vm_compute; reflexivity)
                    ltac:(vm_compute; reflexivity) 2)).
Defined.

(** X4.  A run that finds no entry named [.claude] and ends with code 1
    has either left the disk exactly as it was, so that the command can
    be run again, or left an entry named [.claude] behind: the first
    thing the copy creates is [.claude] itself. *)
Theorem init_failure_all_or_claude (pr : process) (d : Fs.disk) :
  Fs.absent (Fs.tree d) (targetDir pr) →
  exit_code (run init pr d) = 1%Z →
  final (run init pr d) = d
  ∨ is_Some (Fs.tree (final (run init pr d)) !! targetDir pr).
Proof.
  intros Habs Hexit.
  apply init_failed in Hexit as [[Hd _]|(Hcwd & _ & e & Hcopy)]; [by left|].
  eapply FsFacts.copy_fail_dichotomy; [done| |done].
  by rewrite InitFacts.dirname_target.
Qed.

Lemma init_failure_all_or_claude_witness :
  Fs.absent (Fs.tree Sample.readonly) (targetDir Sample.pr)
  ∧ exit_code (run init Sample.pr Sample.readonly) = 1%Z
  ∧ (final (run init Sample.pr Sample.readonly) = Sample.readonly
     ∨ is_Some (Fs.tree (final (run init Sample.pr Sample.readonly))
                  !! targetDir Sample.pr))
  ∧ (final (run init Sample.pr Sample.full) = Sample.full
     ∨ is_Some (Fs.tree (final (run init Sample.pr Sample.full))
                  !! targetDir Sample.pr)).
Proof.
  split; [vm_compute; reflexivity|]. split; [vm_compute; reflexivity|].
  split.
  - apply (init_failure_all_or_claude Sample.pr Sample.readonly);
      vm_compute; reflexivity.
  - apply (init_failure_all_or_claude Sample.pr Sample.full);
      vm_compute; reflexivity.
Defined.

(** X5.  The template is never copied onto or into itself.  When the
    command is run where [.claude] would be the template (the
    [templates] directory of the package), or inside a template that is
    a directory, the disk is left as it was and the success line is not
    printed: the run either finds [.claude] and skips, or the copy
    refuses. *)
Theorem init_never_copies_into_template (pr : process) (d : Fs.disk) :
  templateDir pr `prefix_of` targetDir pr →
  targetDir pr = templateDir pr
  ∨ Fs.tree d !! templateDir pr = Some Fs.Dir →
  final (run init pr d) = d
  ∧ Console stdout [Text success] ∉ output (run init pr d).
Proof.
  intros Hpre Hcase. rewrite InitFacts.init_run.
  destruct (Fs.is_dir (Fs.tree d !! cwd pr)).
  2:{ split; [done|]. intros H. InitFacts.events H. }
  destruct (Fs.pathExists d (targetDir pr)).
  { split; [done|]. intros H. InitFacts.events H. }
  destruct (FsFacts.copy_self_refused (templateDir pr) (targetDir pr) d)
    as [e ->]; [done|by destruct Hcase; auto|].
  split; [done|]. intros H. InitFacts.events H.
Qed.

Lemma init_never_copies_into_template_witness :
  targetDir Sample.pr_templates = templateDir Sample.pr_templates
  ∧ final (run init Sample.pr_templates Sample.broken) = Sample.broken
  ∧ templateDir Sample.pr_inside `prefix_of` targetDir Sample.pr_inside
  ∧ Fs.tree Sample.fresh !! templateDir Sample.pr_inside = Some Fs.Dir
  ∧ final (run init Sample.pr_inside Sample.fresh) = Sample.fresh.
Proof.
  split; [vm_compute; reflexivity|]. split.
  { apply (init_never_copies_into_template Sample.pr_templates Sample.broken);
      [by exists []|left; vm_compute; reflexivity]. }
  split; [by exists ["skills"; ".claude"]|].
  split; [vm_compute; reflexivity|].
  apply (init_never_copies_into_template Sample.pr_inside Sample.fresh);
    [by exists ["skills"; ".claude"]|right; vm_compute; reflexivity].
Defined.

(** X6.  The report of a successful run is a fixed text: two runs that
    both copy and both end with code 0 print the same lines, whatever
    their templates hold. *)
Theorem init_report_static (pr : process) (d1 d2 : Fs.disk) :
  Fs.pathExists d1 (targetDir pr) = false →
  Fs.pathExists d2 (targetDir pr) = false →
  exit_code (run init pr d1) = 0%Z →
  exit_code (run init pr d2) = 0%Z →
  output (run init pr d1) = output (run init pr d2).
Proof.
  intros Hex1 Hex2. rewrite !InitFacts.init_run, Hex1, Hex2.
  destruct (Fs.is_dir (Fs.tree d1 !! cwd pr)); [|done].
  destruct (Fs.is_dir (Fs.tree d2 !! cwd pr)).
  2:{ by destruct (Fs.copy (templateDir pr) (targetDir pr) d1) as [[e1|[]] d1']. }
  destruct (Fs.copy (templateDir pr) (targetDir pr) d1) as [[e1|[]] d1'];
    [done|].
  by destruct (Fs.copy (templateDir pr) (targetDir pr) d2) as [[e2|[]] d2'].
Qed.

Lemma init_report_static_witness :
  Fs.tree Sample.bare !! (templateDir Sample.pr ++ ["README.md"]) = None
  ∧ Fs.tree Sample.fresh !! (templateDir Sample.pr ++ ["README.md"]) ≠ None
  ∧ output (run init Sample.pr Sample.bare)
    = output (run init Sample.pr Sample.fresh).
Proof.
  split; [vm_compute; reflexivity|]. split; [vm_compute; discriminate|].
  apply (init_report_static Sample.pr Sample.bare Sample.fresh);
    vm_compute; reflexivity.
Defined.

End InitMore.
